(** * The rate-computation ring buffer of go-bitflow-collector

    A shallow embedding of [value_ring.go] (package [collector]) and the
    properties of its specification.

    Conventions of the embedding:
    - [bitflow.Value] and [StoredValue] are Go [float64]: Rocq's primitive
      binary64 floats, with the same rounding.
    - [time.Time] is an instant in nanoseconds, [time.Duration] the signed
      nanosecond count of Go; [time.Now()] is an input of [FlushHead].
    - Go's [int] indices are [Z]; every slice access checks its bounds and
      panics outside them, as the Go runtime does.
    - The code runs in the monad [Go]: a result or a panic, together with the
      entries written by [log.Errorf].
    - [ring.lock] only serializes the public methods; the embedding is
      sequential, one method call is one step. *)

From Stdlib Require Import ZArith Lia PrimFloat Uint63 Ascii String.
From Stdlib Require SpecFloat FloatOps FloatAxioms.
From stdpp Require Import base tactics option list.

Local Open Scope Z_scope.

(** ** Package [bitflow] *)

Module bitflow.
(** [type Value float64] *)
Definition Value : Type := float.
Definition zero : Value := 0%float.
End bitflow.

(** ** Package [time] *)

Module time.
(** [type Duration int64], a nanosecond count. *)
Definition Duration : Type := Z.
(** An instant, counted in nanoseconds. *)
Definition Time : Type := Z.

Definition Second : Duration := 1000000000.
Definition minDuration : Duration := - 2 ^ 63.
Definition maxDuration : Duration := 2 ^ 63 - 1.

(** Two's complement wrap-around of [int64] arithmetic. *)
Definition wrap64 (z : Z) : Z := (z + 2 ^ 63) mod 2 ^ 64 - 2 ^ 63.

(** Unary minus on a [Duration], as in [-before]. *)
Definition neg (d : Duration) : Duration := wrap64 (- d).

(** [t.Add(d)] *)
Definition Add (t : Time) (d : Duration) : Time := t + d.

(** [t.Sub(u)]: the difference, saturated to the range of [Duration]. *)
Definition Sub (t u : Time) : Duration :=
  let d := t - u in
  if d <? minDuration then minDuration
  else if maxDuration <? d then maxDuration
  else d.

(** [t.Before(u)] *)
Definition Before (t u : Time) : bool := t <? u.

(** [float64(n)] for an integer below 2^63 in magnitude. *)
Definition float64 (n : Z) : float :=
  if n <? 0 then PrimFloat.opp (PrimFloat.of_uint63 (Uint63.of_Z (- n)))
  else PrimFloat.of_uint63 (Uint63.of_Z n).

(** [d.Seconds()]:
    [sec := d / Second; nsec := d % Second;
     return float64(sec) + float64(nsec)/1e9],
    with Go's truncating division and remainder. *)
Definition Seconds (d : Duration) : float :=
  let sec := Z.quot d Second in
  let nsec := Z.rem d Second in
  PrimFloat.add (float64 sec) (PrimFloat.div (float64 nsec) 1000000000%float).
End time.

(** ** Binary64 values, as sign, mantissa and exponent *)

Module binary64.
(** An infinity of sign [s], or a finite number of sign [s] and magnitude
    at least [2 ^ (k - 1)]: its mantissa has [d] digits and exponent [e]
    with [k ≤ d + e]. *)
Definition at_least (s : bool) (k : Z) (x : SpecFloat.spec_float) : Prop :=
  match x with
  | SpecFloat.S754_infinity s' => s' = s
  | SpecFloat.S754_finite s' m e => s' = s ∧ k ≤ Z.pos (SpecFloat.digits2_pos m) + e
  | _ => False
  end.

(** Neither [+0] nor [-0]. *)
Definition not_zero (x : SpecFloat.spec_float) : Prop :=
  match x with SpecFloat.S754_zero _ => False | _ => True end.
End binary64.

(** ** Values stored in the ring *)

(** The dynamic types a [LogbackValue] interface value can hold:
    [StoredValue], [*StoredValue] ([None] is the nil pointer, [Some v] a
    pointer to [v]), or a type declared by another package. *)
Inductive LogbackValue (F : Type) : Type :=
  | StoredValue (v : bitflow.Value)
  | StoredValuePtr (p : option bitflow.Value)
  | Foreign (x : F).
Arguments StoredValue {F} v.
Arguments StoredValuePtr {F} p.
Arguments Foreign {F} x.

(** The two messages written with [log.Errorf]; a nil interface is [None]. *)
Inductive LogEntry (F : Type) : Type :=
  | CannotDiff (val : bitflow.Value) (logback : option (LogbackValue F))
  | CannotAdd (val : bitflow.Value) (incoming : option (LogbackValue F)).
Arguments CannotDiff {F} val logback.
Arguments CannotAdd {F} val incoming.

(** ** The monad of Go code: a log and a result or a panic *)

Inductive panic : Type :=
  | IndexOutOfRange (i len : Z)
  | NilDereference
  | MakeSliceLenOutOfRange
  | ForeignPanic.

Inductive result (A : Type) : Type :=
  | Ok (a : A)
  | Panic (p : panic).
Arguments Ok {A} a.
Arguments Panic {A} p.

Definition Go (F : Type) (A : Type) : Type := (list (LogEntry F) * result A)%type.

Definition go_ret {F A} (a : A) : Go F A := ([], Ok a).

Definition go_bind {F A B} (k : A → Go F B) (m : Go F A) : Go F B :=
  match m with
  | (l, Ok a) => let '(l', r) := k a in (l ++ l', r)
  | (l, Panic p) => (l, Panic p)
  end.

Definition go_panic {F A} (p : panic) : Go F A := ([], Panic p).

Definition Errorf {F} (e : LogEntry F) : Go F unit := ([e], Ok tt).

#[export] Instance Go_ret {F} : MRet (Go F) := @go_ret F.
#[export] Instance Go_bind {F} : MBind (Go F) := @go_bind F.

(** The methods of a [LogbackValue] implemented outside this package. *)
Class ForeignValue (F : Type) : Type := {
  foreign_DiffValue :
    F → option (LogbackValue F) → time.Duration → Go F bitflow.Value;
  foreign_AddValue :
    F → option (LogbackValue F) → Go F (LogbackValue F);
}.

(** No implementation besides [StoredValue]. *)
#[export] Instance no_foreign : ForeignValue Empty_set := {
  foreign_DiffValue x _ _ := match x with end;
  foreign_AddValue x _ := match x with end;
}.

(** ** Slices *)

(** [s[i]] *)
Definition index {F A} (s : list A) (i : Z) : Go F A :=
  if (0 <=? i) && (i <? Z.of_nat (length s)) then
    match s !! Z.to_nat i with
    | Some x => mret x
    | None => go_panic (IndexOutOfRange i (Z.of_nat (length s)))
    end
  else go_panic (IndexOutOfRange i (Z.of_nat (length s))).

(** [s[i] = x] *)
Definition store {F A} (s : list A) (i : Z) (x : A) : Go F (list A) :=
  if (0 <=? i) && (i <? Z.of_nat (length s)) then mret (<[Z.to_nat i := x]> s)
  else go_panic (IndexOutOfRange i (Z.of_nat (length s))).

(** [for i := lo + n - 1; i >= lo; i-- { body }] over a loop state; the
    body answers [false] when it returns from the enclosing function, and
    so does the loop. *)
Fixpoint for_down {F S} (n : nat) (lo : Z) (body : Z → S → Go F (bool * S))
    (s : S) : Go F (bool * S) :=
  match n with
  | O => mret (true, s)
  | Datatypes.S n' =>
      '(continue, s') ← body (lo + Z.of_nat n') s;
      if continue : bool then for_down n' lo body s' else mret (false, s')
  end.

Section ring.
Context {F : Type} `{!ForeignValue F}.

Abbreviation LogbackValue := (LogbackValue F).
Abbreviation Go := (Go F).

(** ** [StoredValue] *)

(** [func (val StoredValue) DiffValue(logback LogbackValue, interval time.Duration) bitflow.Value] *)
Definition StoredValue_DiffValue (val : bitflow.Value)
    (logback : option LogbackValue) (interval : time.Duration) : Go bitflow.Value :=
  match logback with
  | Some (StoredValue previous) =>
      mret (PrimFloat.div (PrimFloat.sub val previous) (time.Seconds interval))
  | Some (StoredValuePtr (Some previous)) =>
      mret (PrimFloat.div (PrimFloat.sub val previous) (time.Seconds interval))
  | Some (StoredValuePtr None) => go_panic NilDereference
  | _ =>
      _ ← Errorf (CannotDiff val logback);
      mret bitflow.zero
  end.

(** [func (val StoredValue) AddValue(incoming LogbackValue) LogbackValue] *)
Definition StoredValue_AddValue (val : bitflow.Value)
    (incoming : option LogbackValue) : Go LogbackValue :=
  match incoming with
  | Some (StoredValue other) => mret (StoredValue (PrimFloat.add val other))
  | Some (StoredValuePtr (Some other)) => mret (StoredValue (PrimFloat.add val other))
  | Some (StoredValuePtr None) => go_panic NilDereference
  | _ =>
      _ ← Errorf (CannotAdd val incoming);
      mret (StoredValue bitflow.zero)
  end.

(** Method calls through the interface: dispatch on the dynamic type. A
    value method called through a nil [*StoredValue] panics. *)
Definition DiffValue (self : LogbackValue) (previousValue : option LogbackValue)
    (interval : time.Duration) : Go bitflow.Value :=
  match self with
  | StoredValue v => StoredValue_DiffValue v previousValue interval
  | StoredValuePtr (Some v) => StoredValue_DiffValue v previousValue interval
  | StoredValuePtr None => go_panic NilDereference
  | Foreign x => foreign_DiffValue x previousValue interval
  end.

Definition AddValue (self : LogbackValue) (val : option LogbackValue) : Go LogbackValue :=
  match self with
  | StoredValue v => StoredValue_AddValue v val
  | StoredValuePtr (Some v) => StoredValue_AddValue v val
  | StoredValuePtr None => go_panic NilDereference
  | Foreign x => foreign_AddValue x val
  end.

(** ** [TimedValue] and [ValueRing] *)

Record TimedValue : Type := mkTimedValue { Time : time.Time; val : option LogbackValue }.

(** The zero value of [TimedValue]. *)
Definition zeroTimedValue : TimedValue := {| Time := 0; val := None |}.

Record ValueRingFactory : Type := mkFactory { Length : Z; Interval : time.Duration }.

Record ValueRing : Type := mkRing {
  interval : time.Duration;
  values : list TimedValue;
  head : Z;
  aggregator : option LogbackValue;
  previousDiff : bitflow.Value;
}.

Definition len (ring : ValueRing) : Z := Z.of_nat (length (values ring)).

(** [func (factory *ValueRingFactory) NewValueRing() *ValueRing] *)
Definition NewValueRing (factory : ValueRingFactory) : Go ValueRing :=
  if Length factory <? 0 then go_panic MakeSliceLenOutOfRange
  else mret {| interval := Interval factory;
               values := replicate (Z.to_nat (Length factory)) zeroTimedValue;
               head := 0;
               aggregator := None;
               previousDiff := bitflow.zero |}.

(** [func (ring *ValueRing) AddToHead(val LogbackValue)] *)
Definition AddToHead (val : option LogbackValue) (ring : ValueRing) : Go ValueRing :=
  match aggregator ring with
  | None =>
      mret {| interval := interval ring; values := values ring; head := head ring;
              aggregator := val; previousDiff := previousDiff ring |}
  | Some agg =>
      sum ← AddValue agg val;
      mret {| interval := interval ring; values := values ring; head := head ring;
              aggregator := Some sum; previousDiff := previousDiff ring |}
  end.

(** [func (ring *ValueRing) AddValueToHead(val bitflow.Value)] *)
Definition AddValueToHead (val : bitflow.Value) (ring : ValueRing) : Go ValueRing :=
  AddToHead (Some (StoredValue val)) ring.

(** [func (ring *ValueRing) FlushHead()]; [now] is what [time.Now()] returns. *)
Definition FlushHead (now : time.Time) (ring : ValueRing) : Go ValueRing :=
  values' ← store (values ring) (head ring)
                  {| Time := now; val := aggregator ring |};
  let head' := if head ring >=? len ring - 1 then 0 else head ring + 1 in
  mret {| interval := interval ring; values := values'; head := head';
          aggregator := None; previousDiff := previousDiff ring |}.

(** [func (ring *ValueRing) Add(val LogbackValue)] *)
Definition Add (now : time.Time) (val : option LogbackValue) (ring : ValueRing) : Go ValueRing :=
  ring ← AddToHead val ring;
  FlushHead now ring.

(** [func (ring *ValueRing) AddValue(val bitflow.Value)] *)
Definition ValueRing_AddValue (now : time.Time) (val : bitflow.Value) (ring : ValueRing) : Go ValueRing :=
  Add now (Some (StoredValue val)) ring.

(** [func (ring *ValueRing) getHead() TimedValue] *)
Definition getHead (ring : ValueRing) : Go TimedValue :=
  let headIndex := if head ring <=? 0 then len ring - 1 else head ring - 1 in
  index (values ring) headIndex.

(** [func (ring *ValueRing) Increment(val LogbackValue)] *)
Definition Increment (now : time.Time) (v : option LogbackValue) (ring : ValueRing) : Go ValueRing :=
  hd ← getHead ring;
  match hd.(val) with
  | Some cur =>
      sum ← AddValue cur v;
      Add now (Some sum) ring
  | None => Add now v ring
  end.

(** [func (ring *ValueRing) IncrementValue(val bitflow.Value)] *)
Definition IncrementValue (now : time.Time) (val : bitflow.Value) (ring : ValueRing) : Go ValueRing :=
  Increment now (Some (StoredValue val)) ring.

(** [func (ring *ValueRing) GetHead() LogbackValue] *)
Definition GetHead (ring : ValueRing) : Go (option LogbackValue) :=
  hd ← getHead ring;
  mret hd.(val).

(** The closure [walkRing] of [get]; [result] is the variable it assigns. *)
Definition walkRing (ring : ValueRing) (before : time.Time) (i : Z)
    (result : TimedValue) : Go (bool * TimedValue) :=
  slot ← index (values ring) i;
  match slot.(val) with
  | None => mret (false, result)
  | Some _ =>
      let result := slot in
      if time.Before result.(Time) before then mret (false, result)
      else mret (true, result)
  end.

(** [func (ring *ValueRing) get(before time.Time) (result TimedValue)] *)
Definition get (ring : ValueRing) (before : time.Time) : Go TimedValue :=
  '(continue, result) ← for_down (Z.to_nat (head ring)) 0
                                  (walkRing ring before) zeroTimedValue;
  if continue : bool then
    '(_, result) ← for_down (Z.to_nat (len ring - head ring)) (head ring)
                            (walkRing ring before) result;
    mret result
  else mret result.

(** [func (ring *ValueRing) getDiffInterval(before time.Duration) bitflow.Value] *)
Definition getDiffInterval (ring : ValueRing) (before : time.Duration) : Go bitflow.Value :=
  hd ← getHead ring;
  match hd.(val) with
  | None => mret bitflow.zero
  | Some headVal =>
      let beforeTime := time.Add hd.(Time) (time.neg before) in
      previous ← get ring beforeTime;
      match previous.(val) with
      | None => mret bitflow.zero
      | Some _ =>
          let interval := time.Sub hd.(Time) previous.(Time) in
          if interval =? 0 then mret bitflow.zero
          else DiffValue headVal previous.(val) interval
      end
  end.

(** The body of both loops of [flush]: stop at an empty slot, else clear
    the slot's value and keep its timestamp. *)
Definition flushSlot (i : Z) (values : list TimedValue) : Go (bool * list TimedValue) :=
  slot ← index values i;
  match slot.(val) with
  | None => mret (false, values)
  | Some _ =>
      values' ← store values i {| Time := slot.(Time); val := None |};
      mret (true, values')
  end.

(** [func (ring *ValueRing) flush(start int)] *)
Definition flush (start : Z) (ring : ValueRing) : Go ValueRing :=
  let start := if start <? 0 then start + len ring else start in
  '(continue, values') ← for_down (Z.to_nat (start + 1)) 0 flushSlot (values ring);
  if continue : bool then
    '(_, values') ← for_down (Z.to_nat (len ring - head ring)) (head ring)
                             flushSlot values';
    mret {| interval := interval ring; values := values'; head := head ring;
            aggregator := aggregator ring; previousDiff := previousDiff ring |}
  else
    mret {| interval := interval ring; values := values'; head := head ring;
            aggregator := aggregator ring; previousDiff := previousDiff ring |}.

(** [func (ring *ValueRing) GetDiff() bitflow.Value]: the value returned
    and the ring afterwards. *)
Definition GetDiff (ring : ValueRing) : Go (bitflow.Value * ValueRing) :=
  diff ← getDiffInterval ring (interval ring);
  if PrimFloat.ltb diff 0 then
    let diff := previousDiff ring in
    ring' ← flush (head ring - 2) ring;
    mret (diff, ring')
  else
    mret (diff, {| interval := interval ring; values := values ring;
                   head := head ring; aggregator := aggregator ring;
                   previousDiff := diff |}).

End ring.

(** * Definitions of the specification and of the proofs *)

Section auxiliary.
Context {F : Type} `{!ForeignValue F}.

Abbreviation LogbackValue := (LogbackValue F).
Abbreviation Go := (Go F).
Abbreviation ValueRing := (@ValueRing F).
Abbreviation TimedValue := (@TimedValue F).

(** The ring with its last good diff replaced. *)
Definition with_previousDiff (d : bitflow.Value) (ring : ValueRing) : ValueRing :=
  {| interval := interval ring; values := values ring; head := head ring;
     aggregator := aggregator ring; previousDiff := d |}.

(** [walkRing] over the slots in the order they are visited. *)
Fixpoint scan (before : time.Time) (slots : list TimedValue) (result : TimedValue)
    : bool * TimedValue :=
  match slots with
  | [] => (true, result)
  | slot :: rest =>
      match val slot with
      | None => (false, result)
      | Some _ =>
          if time.Before (Time slot) before then (false, slot)
          else scan before rest slot
      end
  end.

(** The slots in the order [get] and [flush] walk them: from [head - 1]
    down to [0], then from the end of the slice down to [head]. *)
Definition history (ring : ValueRing) : list TimedValue :=
  reverse (take (Z.to_nat (head ring)) (values ring))
  ++ reverse (drop (Z.to_nat (head ring)) (values ring)).

(** Five commits into a fresh ring of capacity 3. *)
Definition five_commits (window : time.Duration)
    (t1 t2 t3 t4 t5 : time.Time) (v1 v2 v3 v4 v5 : bitflow.Value)
    : Go ValueRing :=
  r ← NewValueRing {| Length := 3; Interval := window |};
  r ← Add t1 (Some (StoredValue v1)) r;
  r ← Add t2 (Some (StoredValue v2)) r;
  r ← Add t3 (Some (StoredValue v3)) r;
  r ← Add t4 (Some (StoredValue v4)) r;
  Add t5 (Some (StoredValue v5)) r.

(** One state change of a ring: the methods that may write to it.
    [GetHead] and [getHead] return a value and leave the ring as it is;
    [Add] and [Increment] are [AddToHead] followed by [FlushHead]. *)
Inductive step : ValueRing → ValueRing → Prop :=
  | step_AddToHead v r l r' : AddToHead v r = (l, Ok r') → step r r'
  | step_FlushHead now r l r' : FlushHead now r = (l, Ok r') → step r r'
  | step_GetDiff r l d r' : GetDiff r = (l, Ok (d, r')) → step r r'.

(** The states of a ring made by [factory.NewValueRing()]. *)
Inductive reachable (factory : ValueRingFactory) : ValueRing → Prop :=
  | reachable_new r : NewValueRing factory = ([], Ok r) → reachable factory r
  | reachable_step r r' : reachable factory r → step r r' → reachable factory r'.

(** A value that is neither a [StoredValue] nor a [*StoredValue]: the nil
    interface or a type of another package. *)
Definition mismatched (x : option LogbackValue) : Prop :=
  match x with
  | Some (StoredValue _) | Some (StoredValuePtr _) => False
  | Some (Foreign _) | None => True
  end.

(** The slot written by [ring.AddValue(v)] at the instant [now]. *)
Definition stored (sample : time.Time * bitflow.Value) : TimedValue :=
  {| Time := sample.1; val := Some (StoredValue sample.2) |}.

(** [ring.AddValue(v)] for each sample in turn. *)
Fixpoint AddAll (samples : list (time.Time * bitflow.Value)) (r : ValueRing)
    : Go ValueRing :=
  match samples with
  | [] => mret r
  | (now, v) :: rest => r' ← ValueRing_AddValue now v r; AddAll rest r'
  end.

(** The samples (t=0, 100), (t=1s, 150), (t=2s, 200). *)
Definition rate_samples : list (time.Time * bitflow.Value) :=
  [(0, 100%float); (1 * time.Second, 150%float); (2 * time.Second, 200%float)].

(** The three samples committed into a fresh ring with a window of 2s, and
    the diff read when the last one has been committed. *)
Definition rate_example (capacity : Z) : Go bitflow.Value :=
  r ← NewValueRing {| Length := capacity; Interval := 2 * time.Second |};
  r ← AddAll rate_samples r;
  '(d, _) ← GetDiff r;
  mret d.

(** The run of the overflow example with a window of 1s: the values 10, 20
    and 5 committed at t=0, 1s and 2s, the diff read after the second and
    after the third commit, then the head and the values left in the
    slots. *)
Definition overflow_example (capacity : Z)
    : Go (bitflow.Value * bitflow.Value * option LogbackValue * list (option LogbackValue)) :=
  r ← NewValueRing {| Length := capacity; Interval := 1 * time.Second |};
  r ← ValueRing_AddValue 0 10%float r;
  r ← ValueRing_AddValue (1 * time.Second) 20%float r;
  '(d2, r) ← GetDiff r;
  r ← ValueRing_AddValue (2 * time.Second) 5%float r;
  '(d3, r) ← GetDiff r;
  h ← GetHead r;
  mret (d2, d3, h, val <$> values r).

(** [flush(head - 2)] after the samples have been committed into a fresh
    ring: [head], the values left in the slots, and what [GetHead] returns
    afterwards. *)
Definition flush_example (capacity : Z) (samples : list (time.Time * bitflow.Value))
    : Go (Z * list (option LogbackValue) * option LogbackValue) :=
  r ← NewValueRing {| Length := capacity; Interval := 1 * time.Second |};
  r ← AddAll samples r;
  r' ← flush (head r - 2) r;
  h ← GetHead r';
  mret (head r, val <$> values r', h).

End auxiliary.

(** ** Concrete rings *)

(** A ring that holds [StoredValue]s only. *)
Definition ScalarRing : Type := @ValueRing Empty_set.

(** A ring of capacity 3 and window 2s after the commits (t=0, 100) and
    (t=1s, 150): fewer commits than slots, no sample older than the window. *)
Definition short_ring : ScalarRing :=
  {| interval := 2 * time.Second;
     values := [stored (0, 100%float); stored (1 * time.Second, 150%float);
                zeroTimedValue];
     head := 2; aggregator := None; previousDiff := bitflow.zero |}.

(** A ring of capacity 4 and window 1s after the commits (t=0, 10) and
    (t=1s, 20). *)
Definition rising_ring : ScalarRing :=
  {| interval := 1 * time.Second;
     values := [stored (0, 10%float); stored (1 * time.Second, 20%float);
                zeroTimedValue; zeroTimedValue];
     head := 2; aggregator := None; previousDiff := bitflow.zero |}.

(** A ring of capacity 4 that holds one sample, with an earlier diff of 10
    as its last good diff: the state of the overflow example after its
    recovery. *)
Definition recovered_ring : ScalarRing :=
  {| interval := 1 * time.Second;
     values := [zeroTimedValue; {| Time := 1 * time.Second; val := None |};
                stored (2 * time.Second, 5%float); zeroTimedValue];
     head := 3; aggregator := None; previousDiff := 10%float |}.

(** A value type of another package, of which nothing is used but that it
    is not a [StoredValue]. *)
#[export] Instance unit_foreign : ForeignValue unit := {
  foreign_DiffValue _ _ _ := go_panic ForeignPanic;
  foreign_AddValue _ _ := go_panic ForeignPanic;
}.

(** [recovered_ring] after the commit (t=3s, 3), with the last good diff
    overwritten by the edge-case query. *)
Definition falling_ring : ScalarRing :=
  {| interval := 1 * time.Second;
     values := [zeroTimedValue; {| Time := 1 * time.Second; val := None |};
                stored (2 * time.Second, 5%float); stored (3 * time.Second, 3%float)];
     head := 0; aggregator := None; previousDiff := bitflow.zero |}.

(** The factory of the rings of capacity 3 used below. *)
Definition factory3 : ValueRingFactory := {| Length := 3; Interval := 1 * time.Second |}.

(** The ring of [factory3] after one commit. *)
Definition one_commit_ring : ScalarRing :=
  {| interval := 1 * time.Second;
     values := [stored (0, 10%float); zeroTimedValue; zeroTimedValue];
     head := 1; aggregator := None; previousDiff := bitflow.zero |}.

(** * More of the code *)

(** ** More definitions about the ring *)

Section more_definitions.
Context {F : Type} `{!ForeignValue F}.

Abbreviation LogbackValue := (LogbackValue F).
Abbreviation Go := (Go F).
Abbreviation ValueRing := (@ValueRing F).
Abbreviation TimedValue := (@TimedValue F).

(** [ring.AddValueToHead(v)] for each reading in turn. *)
Fixpoint AddAllToHead (readings : list bitflow.Value) (r : ValueRing) : Go ValueRing :=
  match readings with
  | [] => mret r
  | v :: rest => r' ← AddValueToHead v r; AddAllToHead rest r'
  end.

(** [ring.IncrementValue(v)] for each delta in turn, at the given instants. *)
Fixpoint IncrementAll (deltas : list (time.Time * bitflow.Value)) (r : ValueRing)
    : Go ValueRing :=
  match deltas with
  | [] => mret r
  | (now, v) :: rest => r' ← IncrementValue now v r; IncrementAll rest r'
  end.

(** The sum Go computes when it adds the values from left to right. *)
Definition float_sum (start : bitflow.Value) (vs : list bitflow.Value) : bitflow.Value :=
  foldl PrimFloat.add start vs.

(** The ring with its pending value replaced. *)
Definition with_aggregator (a : option LogbackValue) (ring : ValueRing) : ValueRing :=
  {| interval := interval ring; values := values ring; head := head ring;
     aggregator := a; previousDiff := previousDiff ring |}.

(** The slots up to the first empty one. *)
Fixpoint live_run (slots : list TimedValue) : list TimedValue :=
  match slots with
  | [] => []
  | slot :: rest =>
      match val slot with
      | None => []
      | Some _ => slot :: live_run rest
      end
  end.

(** The samples [get] can reach: from the newest one backwards, up to the
    first empty slot. *)
Definition live_history (ring : ValueRing) : list TimedValue :=
  live_run (history ring).

(** The newest of the samples that is earlier than [before], or the oldest
    sample when none is. *)
Definition first_earlier (before : time.Time) (samples : list TimedValue) : TimedValue :=
  match List.find (λ s, time.Before (Time s) before) samples with
  | Some s => s
  | None => default zeroTimedValue (last samples)
  end.

(** A slot after [flush]: the timestamp it had, and the value it had or
    none. *)
Definition kept_or_cleared (old new : TimedValue) : Prop :=
  Time new = Time old ∧ (val new = val old ∨ val new = None).

(** A ring of the given capacity that holds the last samples of a run of
    commits: the sample number [j] is in slot [j mod capacity] unless a
    later one has overwritten it, the slots never written are empty, [head]
    is the slot of the next commit and the head is the last sample. *)
Definition retains (capacity : Z) (samples : list (time.Time * bitflow.Value))
    (r : ValueRing) : Prop :=
  len r = capacity
  ∧ head r = Z.of_nat (length samples) mod capacity
  ∧ aggregator r = None
  ∧ (∀ (j : nat) sample,
       samples !! j = Some sample →
       Z.of_nat (length samples) - capacity ≤ Z.of_nat j →
       values r !! Z.to_nat (Z.of_nat j mod capacity) = Some (stored sample))
  ∧ (∀ i : nat, (length samples ≤ i)%nat → Z.of_nat i < capacity →
       values r !! i = Some zeroTimedValue)
  ∧ (∀ sample, last samples = Some sample → getHead r = mret (stored sample)).

End more_definitions.

(** ** Package [strings] and the command [bitflow-collect] *)

Module strings.
(** [strings.HasPrefix(s, prefix)] on the bytes of the strings. *)
Fixpoint HasPrefix (s prefix : list ascii) : bool :=
  match prefix, s with
  | [], _ => true
  | p :: prefix', c :: s' => Ascii.eqb c p && HasPrefix s' prefix'
  | _ :: _, [] => false
  end.

(** [strings.Index(s, substr)]: the index of the first instance of
    [substr] in [s], or -1. *)
Fixpoint Index (s substr : list ascii) : Z :=
  if HasPrefix s substr then 0
  else match s with
       | [] => -1
       | _ :: s' => let i := Index s' substr in if i <? 0 then -1 else i + 1
       end.
End strings.

Module main.

(** The separator ["="]. *)
Definition equals : list ascii := ["="%char].

(** The message of the error given to [golib.Checkerr]. *)
Definition formatError : string :=
  "-proc and -proc_regex must have argument format 'key=value'"%string.

(** [func splitKeyValue(pair string) (string, string)]: the error handed
    to [golib.Checkerr], if any, and the strings returned (when
    [golib.Checkerr] returns). *)
Definition splitKeyValue (pair : list ascii) : option string * (list ascii * list ascii) :=
  let index := strings.Index pair equals in
  if index >? 0 then
    (None, (take (Z.to_nat index) pair, drop (Z.to_nat (index + 1)) pair))
  else (Some formatError, ([], [])).

(** The statement of [do_main] that sizes the rings:
    [valueFactory.Length = int(valueFactory.Interval/collect_local_interval) * 3],
    with [int] of 64 bits; [None] is the panic of a division by zero. *)
Definition configureLength (collect_local_interval : time.Duration)
    (valueFactory : ValueRingFactory) : option ValueRingFactory :=
  if collect_local_interval =? 0 then None
  else Some {| Length := time.wrap64
                           (time.wrap64 (Z.quot (Interval valueFactory)
                                                collect_local_interval) * 3);
               Interval := Interval valueFactory |}.

End main.

(** ** The mock collector *)

Module mock.

(** [const _max_mock_val = 15] *)
Definition _max_mock_val : bitflow.Value := 15%float.

(** One round of the loop started by [Init], after its sleep:
    [col.val++; if col.val >= _max_mock_val { col.val = 2 }]. *)
Definition generate (val : bitflow.Value) : bitflow.Value :=
  let val := PrimFloat.add val 1 in
  if PrimFloat.leb _max_mock_val val then 2%float else val.

(** The value after [n] rounds; [col.val] starts as 0. *)
Definition generated (n : nat) : bitflow.Value := Nat.iter n generate 0%float.

(** The values the generator takes. *)
Definition mock_values : list bitflow.Value :=
  [0; 1; 2; 3; 4; 5; 6; 7; 8; 9; 10; 11; 12; 13; 14]%float.

End mock.

(** ** The REST API of the file output *)

Module cmd_helper.
Local Open Scope string_scope.

(** The line feed. *)
Definition newline : string := String (ascii_of_nat 10) EmptyString.

(** [func (api *FileOutputFilterApi) handleRequest(w, r)]: from the
    request's method and [api.FileOutputEnabled], the new
    [api.FileOutputEnabled], the lines given to [log.Println] and the
    bytes written to [w]. *)
Definition handleRequest (method : string) (FileOutputEnabled : bool)
    : bool * list string * string :=
  let oldStatus := FileOutputEnabled in
  let newStatus :=
    if String.eqb method "GET" then oldStatus
    else if String.eqb method "POST" || String.eqb method "PUT" then true
    else if String.eqb method "DELETE" then false
    else oldStatus in
  let status := if newStatus then "enabled" else "disabled" in
  let status := "File output is " ++ status in
  (newStatus,
   if negb (Bool.eqb oldStatus newStatus) then [status] else [],
   status ++ newline).

(** The requests of a list handled one after the other: the last
    [api.FileOutputEnabled] and all lines logged. *)
Fixpoint serve (methods : list string) (FileOutputEnabled : bool) : bool * list string :=
  match methods with
  | [] => (FileOutputEnabled, [])
  | method :: rest =>
      let '(enabled, lines, _) := handleRequest method FileOutputEnabled in
      let '(final, lines') := serve rest enabled in
      (final, (lines ++ lines')%list)
  end.

(** What a request asks for: [POST] and [PUT] to enable, [DELETE] to
    disable, anything else nothing. *)
Definition requested (method : string) : option bool :=
  if String.eqb method "POST" || String.eqb method "PUT" then Some true
  else if String.eqb method "DELETE" then Some false
  else None.

End cmd_helper.

(** ** The libvirt driver *)

Module libvirt.

Section driver.
(** A connection of the libvirt library ([*lib.Connect]) and its errors. *)
Context {Conn LibError : Type}.

(** The errors this file returns: the one it makes with [errors.New], the
    one it makes with [fmt.Errorf] (with the number of CPU stats received),
    and those the library returns. *)
Inductive error : Type :=
  | NotConnected
  | WrongNumberOfCpuStats (n : Z)
  | Lib (e : LibError).

(** What the library answers to the calls of one [connection()] or
    [Close()]: [conn.IsAlive()], [conn.Close()] and [lib.NewConnect(uri)]. *)
Record Library : Type := mkLibrary {
  IsAlive : Conn → bool * option LibError;
  ConnClose : Conn → Z * option LibError;
  NewConnect : string → option Conn * option LibError;
}.

(** [type DriverImpl struct { uri string; conn *lib.Connect }] *)
Record DriverImpl : Type := mkDriver { uri : string; conn : option Conn }.

(** [func NewDriver() Driver] *)
Definition NewDriver : DriverImpl := {| uri := ""; conn := None |}.

(** [func (d *DriverImpl) Connect(uri string) error] *)
Definition Connect (u : string) (d : DriverImpl) : DriverImpl * option error :=
  ({| uri := u; conn := conn d |}, None).

(** [func (d *DriverImpl) Close() (err error)] *)
Definition Close (L : Library) (d : DriverImpl) : DriverImpl * option error :=
  match conn d with
  | Some c =>
      let '(_, err) := ConnClose L c in
      ({| uri := uri d; conn := None |}, Lib <$> err)
  | None => (d, None)
  end.

(** The second half of [connection]: [if conn == nil { ... }; return conn, nil]. *)
Definition connect_if_nil (L : Library) (c : option Conn) (d : DriverImpl)
    : DriverImpl * (option Conn * option error) :=
  match c with
  | None =>
      if String.eqb (uri d) "" then (d, (None, Some NotConnected))
      else
        let '(c', err) := NewConnect L (uri d) in
        match err with
        | Some e => (d, (None, Some (Lib e)))
        | None => ({| uri := uri d; conn := c' |}, (c', None))
        end
  | Some c => (d, (Some c, None))
  end.

(** [func (d *DriverImpl) connection()], which returns a [*lib.Connect]
    and an [error]: the driver afterwards, the two results, and the errors
    given to [log.Warnln]. *)
Definition connection (L : Library) (d : DriverImpl)
    : DriverImpl * (option Conn * option error) * list (option LibError) :=
  match conn d with
  | Some c =>
      let '(alive, err) := IsAlive L c in
      if bool_decide (is_Some err) || negb alive then
        let '(d', cerr) := Close L d in
        match cerr with
        | Some e => (d', (None, Some e), [err])
        | None => (connect_if_nil L None d', [err])
        end
      else (connect_if_nil L (Some c) d, [])
  | None => (connect_if_nil L None d, [])
  end.
End driver.

Section domain.
(** The library's [lib.DomainCPUStats] and [lib.DomainMemoryStat] with the
    fields this file reads, the library's errors, and the two tags
    [int32(lib.DOMAIN_MEMORY_STAT_UNUSED)] and
    [int32(lib.DOMAIN_MEMORY_STAT_AVAILABLE)]. *)
Context {LibError DomainCPUStats DomainMemoryStat : Type}.
Context (CpuTime SystemTime UserTime VcpuTime : DomainCPUStats → Z).
Context (Tag Val : DomainMemoryStat → Z).
Context (DOMAIN_MEMORY_STAT_UNUSED DOMAIN_MEMORY_STAT_AVAILABLE : Z).

(** The fields of [VirDomainCpuStats] that this file assigns. *)
Record VirDomainCpuStats : Type := mkCpuStats {
  cpuTime : Z; systemTime : Z; userTime : Z; vcpuTime : Z;
}.

(** The fields of [VirDomainMemoryStat] that this file assigns. *)
Record VirDomainMemoryStat : Type := mkMemoryStat { Unused : Z; Available : Z }.

(** [func (d *DomainImpl) CpuStats() (res VirDomainCpuStats, err error)],
    from what [d.domain.GetCPUStats(-1, 1, NO_FLAGS)] returns. *)
Definition CpuStats (response : list DomainCPUStats * option LibError)
    : VirDomainCpuStats * option (error (LibError := LibError)) :=
  let '(statSlice, liberr) := response in
  let res := {| cpuTime := 0; systemTime := 0; userTime := 0; vcpuTime := 0 |} in
  let err := Lib <$> liberr in
  let err :=
    match err with
    | None =>
        if negb (Z.of_nat (length statSlice) =? 1)
        then Some (WrongNumberOfCpuStats (Z.of_nat (length statSlice)))
        else None
    | Some e => Some e
    end in
  match err with
  | None =>
      match statSlice with
      | stats :: _ =>
          ({| cpuTime := CpuTime stats; systemTime := SystemTime stats;
              userTime := UserTime stats; vcpuTime := VcpuTime stats |}, None)
      | [] => (res, None)
      end
  | Some e => (res, Some e)
  end.

(** The body of the loop of [MemoryStats]: the [switch stat.Tag]. *)
Definition memoryStat (res : VirDomainMemoryStat) (stat : DomainMemoryStat)
    : VirDomainMemoryStat :=
  if Tag stat =? DOMAIN_MEMORY_STAT_UNUSED then
    {| Unused := Val stat; Available := Available res |}
  else if Tag stat =? DOMAIN_MEMORY_STAT_AVAILABLE then
    {| Unused := Unused res; Available := Val stat |}
  else res.

(** [func (d *DomainImpl) MemoryStats() (res VirDomainMemoryStat, err error)],
    from what [d.domain.MemoryStats(MAX_NUM_MEMORY_STATS, NO_FLAGS)] returns. *)
Definition MemoryStats (response : list DomainMemoryStat * option LibError)
    : VirDomainMemoryStat * option (error (LibError := LibError)) :=
  let '(stats, liberr) := response in
  let res := {| Unused := 0; Available := 0 |} in
  match liberr with
  | None => (foldl memoryStat res stats, None)
  | Some e => (res, Some (Lib e))
  end.

(** The value of the last statistic with the given tag, and 0 without one. *)
Definition last_with_tag (tag : Z) (stats : list DomainMemoryStat) : Z :=
  default 0 (last (Val <$> filter (λ stat, Tag stat = tag) stats)).

End domain.

End libvirt.

(** ** More concrete rings and a library *)

(** A fresh ring of capacity 3 and window 1s. *)
Definition fresh_ring : ScalarRing :=
  {| interval := 1 * time.Second;
     values := [zeroTimedValue; zeroTimedValue; zeroTimedValue];
     head := 0; aggregator := None; previousDiff := bitflow.zero |}.

(** A ring of capacity 4 and window 1s after the commits (t=0, 10),
    (t=1s, 20) and (t=2s, 5), with the diff 10 read after the second. *)
Definition wrapped_counter_ring : ScalarRing :=
  {| interval := 1 * time.Second;
     values := [stored (0, 10%float); stored (1 * time.Second, 20%float);
                stored (2 * time.Second, 5%float); zeroTimedValue];
     head := 3; aggregator := None; previousDiff := 10%float |}.

(** The factory of the rings with one slot. *)
Definition factory1 : ValueRingFactory := {| Length := 1; Interval := 1 * time.Second |}.

(** The ring of [factory1] after the commits (t=0, 10) and (t=1s, 20): the
    second has overwritten the first. *)
Definition sampled_single_slot_ring : ScalarRing :=
  {| interval := 1 * time.Second; values := [stored (1 * time.Second, 20%float)];
     head := 0; aggregator := None; previousDiff := bitflow.zero |}.

(** The factory of [rising_ring] and [wrapped_counter_ring]. *)
Definition factory4 : ValueRingFactory := {| Length := 4; Interval := 1 * time.Second |}.

(** [rising_ring] once [GetDiff] has stored its diff of 10. *)
Definition rising_ring_read : ScalarRing := with_previousDiff 10%float rising_ring.

(** [rising_ring] with the value 5 pending. *)
Definition pending_ring : ScalarRing :=
  with_aggregator (Some (StoredValue 5%float)) rising_ring.

(** A ring of capacity 4 and window 1s after the commits (t=0, 10) and
    (t=500ms, 20): the two samples are half a second apart. *)
Definition half_second_ring : ScalarRing :=
  {| interval := 1 * time.Second;
     values := [stored (0, 10%float); stored (500000000, 20%float);
                zeroTimedValue; zeroTimedValue];
     head := 2; aggregator := None; previousDiff := bitflow.zero |}.

(** A library whose connections are numbers: connection 1 is dead, the
    others are alive, and every new connection is number 2. *)
Definition test_library : libvirt.Library (Conn := nat) (LibError := unit) :=
  {| libvirt.IsAlive c := (negb (Nat.eqb c 1), None);
     libvirt.ConnClose _ := (0, None);
     libvirt.NewConnect _ := (Some 2%nat, None) |}.

(** A driver connected to the dead connection 1. *)
Definition stale_driver : libvirt.DriverImpl (Conn := nat) :=
  {| libvirt.uri := "qemu:///system"; libvirt.conn := Some 1%nat |}.

(** * The [float64] of a [Duration]

    Go's [float64] is IEEE 754 binary64 with rounding to nearest even, the
    arithmetic of Rocq's primitive floats; their specification relates each
    operation to the same operation on sign, mantissa and exponent. *)

Section seconds.
Import SpecFloat FloatOps FloatAxioms.

Lemma at_least_mono s k k' x : k' ≤ k → binary64.at_least s k x → binary64.at_least s k' x.
Proof. destruct x; simpl; intuition lia. Qed.

(** The number of binary digits of a positive number. *)
Lemma digits2_pos_log2 p : Z.pos (digits2_pos p) = Z.log2 (Z.pos p) + 1.
Proof.
  assert (H : ∀ q, digits2_pos q = Pos.size q) by (induction q; simpl; congruence).
  destruct p; simpl; rewrite ?H; lia.
Qed.

Lemma Zdigits2_log2 m : 0 < m → Zdigits2 m = Z.log2 m + 1.
Proof. destruct m; try lia. intros _. apply digits2_pos_log2. Qed.

Lemma digits2_pos_iter_xO m d :
  Z.pos (digits2_pos (Pos.iter xO m d)) = Z.pos (digits2_pos m) + Z.pos d.
Proof.
  induction d as [|d IH] using Pos.peano_ind.
  - simpl. lia.
  - rewrite Pos.iter_succ. simpl. lia.
Qed.

(** Shifting the mantissa of a rounding record to the right divides it. *)
Lemma shr_m_shr_1 mrs : 0 ≤ shr_m mrs → shr_m (shr_1 mrs) = shr_m mrs / 2.
Proof.
  destruct mrs as [m r s]. simpl. intros Hm.
  destruct m as [|[p|p|]|]; cbn [shr_m]; try lia; try done.
  - apply Z.div_unique with 1; lia.
  - apply Z.div_unique with 0; lia.
Qed.

Lemma shr_m_iter_pos p : ∀ mrs,
  0 ≤ shr_m mrs → shr_m (SpecFloat.iter_pos shr_1 p mrs) = shr_m mrs / 2 ^ Z.pos p.
Proof.
  assert (Hpos : ∀ a p, 0 ≤ a → 0 ≤ a / 2 ^ Z.pos p)
    by (intros; apply Z.div_pos; lia).
  induction p as [p IH|p IH|]; intros mrs Hm; simpl.
  - assert (H1 : 0 ≤ shr_m (shr_1 mrs))
      by (rewrite shr_m_shr_1 by done; apply Z.div_pos; lia).
    assert (H2 : 0 ≤ shr_m (SpecFloat.iter_pos shr_1 p (shr_1 mrs)))
      by (rewrite IH by done; auto).
    rewrite !IH, shr_m_shr_1 by done.
    rewrite !Z.div_div by lia. f_equal.
    replace (Z.pos p~1) with (Z.pos p + Z.pos p + 1) by lia.
    rewrite !Z.pow_add_r by lia. ring.
  - assert (H2 : 0 ≤ shr_m (SpecFloat.iter_pos shr_1 p mrs))
      by (rewrite IH by done; auto).
    rewrite !IH by done.
    rewrite !Z.div_div by lia. f_equal.
    replace (Z.pos p~0) with (Z.pos p + Z.pos p) by lia.
    rewrite !Z.pow_add_r by lia. ring.
  - apply shr_m_shr_1. done.
Qed.

Lemma shr_m_shr_record_of_loc m l : shr_m (shr_record_of_loc m l) = m.
Proof. by destruct l as [|[]]. Qed.

(** The shift to the format's exponent keeps a mantissa above the
    subnormal range positive, and keeps its magnitude. *)
Lemma shr_fexp_spec m e l :
  0 < m → -1074 < Zdigits2 m + e →
  0 < shr_m (shr_fexp prec emax m e l).1
  ∧ Zdigits2 (shr_m (shr_fexp prec emax m e l).1) + (shr_fexp prec emax m e l).2
    = Zdigits2 m + e.
Proof.
  intros Hm He. unfold shr_fexp, shr.
  set (n := fexp prec emax (Zdigits2 m + e) - e).
  assert (Hn : n < Zdigits2 m)
    by (unfold n, fexp, SpecFloat.emin, prec, emax; lia).
  destruct n as [|p|p]; simpl; rewrite ?shr_m_shr_record_of_loc; try done.
  rewrite shr_m_iter_pos by (rewrite shr_m_shr_record_of_loc; lia).
  rewrite shr_m_shr_record_of_loc.
  rewrite Zdigits2_log2 in Hn by done.
  assert (Hle : 2 ^ Z.pos p ≤ m).
  { transitivity (2 ^ Z.log2 m).
    - apply Z.pow_le_mono_r; lia.
    - apply Z.log2_spec. done. }
  assert (Hq : 0 < m / 2 ^ Z.pos p) by (apply Z.div_str_pos; lia).
  split; [done|].
  rewrite !Zdigits2_log2 by done.
  rewrite <- Z.shiftr_div_pow2, Z.log2_shiftr by lia. lia.
Qed.

(** Rounding to nearest even does not lower the magnitude, so above the
    subnormal range it never rounds to zero. *)
Lemma binary_round_aux_at_least s m e l :
  0 < m → -1074 < Zdigits2 m + e →
  binary64.at_least s (Zdigits2 m + e) (binary_round_aux prec emax s m e l).
Proof.
  intros Hm He. unfold binary_round_aux.
  destruct (shr_fexp_spec m e l Hm He) as [Hm1 He1].
  destruct (shr_fexp prec emax m e l) as [mrs' e']. simpl in Hm1, He1.
  set (m2 := round_nearest_even (shr_m mrs') (loc_of_shr_record mrs')).
  assert (Hm2 : shr_m mrs' ≤ m2 ≤ shr_m mrs' + 1).
  { unfold m2, round_nearest_even.
    destruct (loc_of_shr_record mrs') as [|[]]; try lia.
    destruct (Z.even (shr_m mrs')); lia. }
  assert (Hd2 : Zdigits2 (shr_m mrs') ≤ Zdigits2 m2).
  { rewrite !Zdigits2_log2 by lia.
    apply Z.add_le_mono_r, Z.log2_le_mono. lia. }
  destruct (shr_fexp_spec m2 e' loc_Exact) as [Hm3 He3]; [lia..|].
  destruct (shr_fexp prec emax m2 e' loc_Exact) as [mrs'' e'']. simpl in Hm3, He3.
  destruct (shr_m mrs'') as [|m3|m3]; try lia.
  destruct (e'' <=? emax - prec); simpl; [|done].
  split; [done|]. simpl in He3. lia.
Qed.

Lemma binary_round_at_least s m e :
  -1074 < Z.pos (digits2_pos m) + e →
  binary64.at_least s (Z.pos (digits2_pos m) + e) (binary_round prec emax s m e).
Proof.
  intros He. unfold binary_round, shl_align.
  destruct (fexp prec emax (Z.pos (digits2_pos m) + e) - e) as [|d|d] eqn:Hd;
    try (apply (binary_round_aux_at_least s (Z.pos m) e); simpl; lia).
  eapply at_least_mono; [|apply binary_round_aux_at_least]; simpl;
    rewrite ?digits2_pos_iter_xO; lia.
Qed.

(** A binary64 number has an exponent of at least -1074 and, unless it is
    subnormal, a mantissa of 53 digits. *)
Lemma valid_binary_finite s m e :
  valid_binary (S754_finite s m e) = true →
  -1074 ≤ e ∧ (-1021 < Z.pos (digits2_pos m) + e → Z.pos (digits2_pos m) = 53).
Proof.
  unfold SpecFloat.valid_binary, bounded, canonical_mantissa, fexp,
    SpecFloat.emin, prec, emax.
  intros [H _]%andb_prop. apply Z.eqb_eq in H. lia.
Qed.

(** [float64(n)] of an integer below 2^63 in magnitude: [+0] for 0, else a
    number of the sign of [n] and of magnitude at least 1. *)
Lemma Prim2SF_float64_0 : Prim2SF (time.float64 0) = S754_zero false.
Proof. reflexivity. Qed.

Lemma Prim2SF_float64 n :
  - 2 ^ 63 < n < 2 ^ 63 → n ≠ 0 →
  binary64.at_least (n <? 0) 1 (Prim2SF (time.float64 n)).
Proof.
  intros Hn Hn0. unfold time.float64.
  assert (Hof : ∀ z, 0 < z < 2 ^ 63 →
    binary64.at_least false 1 (Prim2SF (of_uint63 (of_Z z)))).
  { intros z Hz. rewrite of_uint63_spec, of_Z_spec.
    rewrite Z.mod_small by (change wB with (2 ^ 63); lia).
    destruct z as [|p|p]; try lia. simpl.
    eapply at_least_mono; [|apply binary_round_at_least]; lia. }
  destruct (Z.ltb_spec n 0).
  - rewrite opp_spec. specialize (Hof (- n)).
    destruct (Prim2SF (of_uint63 (of_Z (- n)))); simpl in *;
      try (by apply Hof; lia).
    + rewrite (Hof ltac:(lia)). done.
    + destruct Hof as [-> ?]; [lia|]. done.
  - apply Hof. lia.
Qed.

(** The constant [1e9] is [8388608000000000 * 2^-23]. *)
Lemma Prim2SF_1e9 :
  Prim2SF 1000000000%float = S754_finite false 8388608000000000 (-23).
Proof. reflexivity. Qed.

(** A number of magnitude at least 1 divided by [1e9] is not rounded to
    zero. *)
Lemma SFdiv_1e9_at_least s y :
  valid_binary y = true → binary64.at_least s 1 y →
  binary64.at_least s (-1000)
    (SFdiv prec emax y (S754_finite false 8388608000000000 (-23))).
Proof.
  destruct y as [| |  |s' m e]; try done.
  - simpl. intros _ ->. by destruct s.
  - intros [He Hd]%valid_binary_finite [-> Hk].
    unfold SFdiv, SFdiv_core_binary.
    change (Zdigits2 (Z.pos m)) with (Z.pos (digits2_pos m)).
    change (Zdigits2 8388608000000000) with 53.
    rewrite Hd by lia. rewrite Hd in Hk by lia.
    replace (Z.min (fexp prec emax (53 + e - (53 + -23))) (e - -23)) with (e - 30)
      by (unfold fexp, SpecFloat.emin, prec, emax; lia).
    replace (e - -23 - (e - 30)) with 53 by lia.
    cbv iota.
    assert (Hm : 2 ^ 52 ≤ Z.pos m).
    { pose proof (digits2_pos_log2 m) as Hl. rewrite Hd in Hl by lia.
      replace 52 with (Z.log2 (Z.pos m)) by lia. apply Z.log2_spec. lia. }
    set (a := Z.shiftl (Z.pos m) 53).
    assert (Ha : a = Z.pos m * 2 ^ 53)
      by (unfold a; rewrite Z.shiftl_mul_pow2; lia).
    pose proof (Z.div_le_lower_bound a 8388608000000000 1 ltac:(lia) ltac:(lia)) as Hq.
    unfold Z.div in Hq.
    destruct (Z.div_eucl a 8388608000000000) as [q r].
    rewrite Bool.xorb_false_r.
    eapply at_least_mono; [|apply binary_round_aux_at_least; try lia].
    + rewrite Zdigits2_log2 by lia. pose proof (Z.log2_nonneg q). lia.
    + rewrite Zdigits2_log2 by lia. pose proof (Z.log2_nonneg q). lia.
Qed.

Lemma at_least_not_zero s k x : binary64.at_least s k x → binary64.not_zero x.
Proof. by destruct x. Qed.

(** The sum of two numbers of the same sign is not zero. *)
Lemma SFadd_same_sign s k k' x y :
  valid_binary x = true → valid_binary y = true →
  binary64.at_least s k x → binary64.at_least s k' y →
  binary64.not_zero (SFadd prec emax x y).
Proof.
  destruct x as [| sx | |sx mx ex], y as [| sy | |sy my ey]; try done.
  - simpl. intros _ _ -> ->. by destruct s.
  - intros [Hx _]%valid_binary_finite [Hy _]%valid_binary_finite [-> _] [-> _].
    unfold SFadd.
    set (a := (shl_align mx ex (ex `min` ey)).1).
    set (b := (shl_align my ey (ex `min` ey)).1).
    apply (at_least_not_zero s (-1073)).
    destruct s; simpl.
    + eapply at_least_mono; [|apply binary_round_at_least]; lia.
    + eapply at_least_mono; [|apply binary_round_at_least]; lia.
Qed.

Lemma SFeqb_not_zero x : binary64.not_zero x → SFeqb x (S754_zero false) = false.
Proof. destruct x as [| [] | |[]]; done. Qed.

(** [d.Seconds()] of a [Duration] other than 0 is not zero: [sec] and
    [nsec] have the sign of [d], and one of them is not 0. *)
Lemma Seconds_not_zero (d : time.Duration) :
  time.minDuration ≤ d ≤ time.maxDuration → d ≠ 0 →
  PrimFloat.eqb (time.Seconds d) 0 = false.
Proof.
  unfold time.minDuration, time.maxDuration, time.Seconds, time.Second.
  intros Hd Hd0.
  rewrite FloatAxioms.eqb_spec. apply SFeqb_not_zero.
  rewrite add_spec, div_spec, Prim2SF_1e9. unfold SF64add, SF64div.
  pose proof (Z.quot_rem' d 1000000000) as Hqr.
  set (sec := d ÷ 1000000000) in *. set (nsec := Z.rem d 1000000000) in *.
  assert (Hsign : (0 ≤ sec ∧ 0 ≤ nsec < 1000000000)
                  ∨ (sec ≤ 0 ∧ -1000000000 < nsec ≤ 0)).
  { destruct (Z.le_gt_cases 0 d).
    - left. pose proof (Z.rem_bound_pos d 1000000000). fold nsec in H0. lia.
    - right. pose proof (Z.rem_bound_pos_neg d 1000000000). fold nsec in H0. lia. }
  pose proof (Prim2SF_valid (time.float64 sec)) as Hvx.
  pose proof (Prim2SF_valid
    (PrimFloat.div (time.float64 nsec) 1000000000%float)) as Hvq.
  rewrite div_spec, Prim2SF_1e9 in Hvq. unfold SF64div in Hvq.
  destruct (decide (sec = 0)) as [Hs|Hs]; [|destruct (decide (nsec = 0)) as [Hn|Hn]].
  - rewrite Hs, Prim2SF_float64_0.
    pose proof (SFdiv_1e9_at_least (nsec <? 0) _
      (Prim2SF_valid (time.float64 nsec))
      (Prim2SF_float64 nsec ltac:(lia) ltac:(lia))) as Hq.
    destruct (SFdiv _ _ _ _); simpl in *; done.
  - rewrite Hn, Prim2SF_float64_0.
    pose proof (Prim2SF_float64 sec ltac:(lia) Hs) as Hx.
    simpl. destruct (Prim2SF (time.float64 sec)); done.
  - pose proof (Prim2SF_float64 sec ltac:(lia) Hs) as Hx.
    pose proof (SFdiv_1e9_at_least (nsec <? 0) _
      (Prim2SF_valid (time.float64 nsec))
      (Prim2SF_float64 nsec ltac:(lia) Hn)) as Hq.
    replace (nsec <? 0) with (sec <? 0) in Hq
      by (destruct (Z.ltb_spec sec 0), (Z.ltb_spec nsec 0); lia).
    by eapply SFadd_same_sign.
Qed.

(** [t.Sub(u)] is a [Duration]: it fits into an [int64]. *)
Lemma Sub_range (t u : time.Time) :
  time.minDuration ≤ time.Sub t u ≤ time.maxDuration.
Proof.
  unfold time.Sub, time.minDuration, time.maxDuration.
  destruct (Z.ltb_spec (t - u) (- 2 ^ 63)); [lia|].
  destruct (Z.ltb_spec (2 ^ 63 - 1) (t - u)); lia.
Qed.

End seconds.

(** * Reasoning about Go code *)

Section verification.
Context {F : Type} `{!ForeignValue F}.

Abbreviation LogbackValue := (LogbackValue F).
Abbreviation Go := (Go F).
Abbreviation ValueRing := (@ValueRing F).
Abbreviation TimedValue := (@TimedValue F).

(** ** The monad and slices *)

Lemma Zgeb_false (a b : Z) : (a >=? b) = false → a < b.
Proof. rewrite Z.geb_leb. apply Z.leb_gt. Qed.

Lemma bind_ret_l {A B} (a : A) (k : A → Go B) : (mret a ≫= k) = k a.
Proof. unfold mbind, mret, Go_bind, Go_ret, go_bind, go_ret. simpl. by destruct (k a). Qed.

Lemma bind_Ok {A B} (m : Go A) (k : A → Go B) l a :
  m = (l, Ok a) → (m ≫= k) = (l ++ (k a).1, (k a).2).
Proof. intros ->. unfold mbind, Go_bind, go_bind. by destruct (k a). Qed.

Lemma bind_Panic {A B} (m : Go A) (k : A → Go B) l p :
  m = (l, Panic p) → (m ≫= k) = (l, Panic p).
Proof. by intros ->. Qed.

Lemma bind_inv_Ok {A B} (m : Go A) (k : A → Go B) l b :
  (m ≫= k) = (l, Ok b) →
  ∃ l1 a l2, m = (l1, Ok a) ∧ k a = (l2, Ok b) ∧ l = l1 ++ l2.
Proof.
  destruct m as [l1 [a|p]]; unfold mbind, Go_bind, go_bind.
  - destruct (k a) as [l2 r] eqn:Hk. intros [= <- ->]. by exists l1, a, l2.
  - intros [= _ ?].
Qed.

Lemma index_lookup {A} (s : list A) (i : Z) x :
  0 ≤ i → s !! Z.to_nat i = Some x → index (F:=F) s i = mret x.
Proof.
  intros Hi Hx. unfold index.
  apply lookup_lt_Some in Hx as Hlt.
  replace ((0 <=? i) && (i <? Z.of_nat (length s))) with true
    by (symmetry; apply andb_true_iff; split; [apply Z.leb_le|apply Z.ltb_lt]; lia).
  by rewrite Hx.
Qed.

Lemma index_inv {A} (s : list A) (i : Z) l x :
  index (F:=F) s i = (l, Ok x) → l = [] ∧ 0 ≤ i < Z.of_nat (length s) ∧ s !! Z.to_nat i = Some x.
Proof.
  unfold index. destruct ((0 <=? i) && (i <? Z.of_nat (length s))) eqn:Hb; [|intros [=]].
  apply andb_true_iff in Hb as [H1%Z.leb_le H2%Z.ltb_lt].
  destruct (s !! Z.to_nat i) eqn:Hx; intros [= <- <-]; auto.
Qed.

Lemma store_insert {A} (s : list A) (i : Z) x :
  0 ≤ i < Z.of_nat (length s) → store (F:=F) s i x = mret (<[Z.to_nat i := x]> s).
Proof.
  intros Hi. unfold store.
  replace ((0 <=? i) && (i <? Z.of_nat (length s))) with true; [done|].
  symmetry; apply andb_true_iff; split; [apply Z.leb_le|apply Z.ltb_lt]; lia.
Qed.

Lemma store_inv {A} (s : list A) (i : Z) x l s' :
  store (F:=F) s i x = (l, Ok s') →
  l = [] ∧ 0 ≤ i < Z.of_nat (length s) ∧ s' = <[Z.to_nat i := x]> s.
Proof.
  unfold store. destruct ((0 <=? i) && (i <? Z.of_nat (length s))) eqn:Hb; [|intros [=]].
  apply andb_true_iff in Hb as [H1%Z.leb_le H2%Z.ltb_lt].
  intros [= <- <-]; auto.
Qed.

(** ** [FlushHead], [flush] and [GetDiff] *)

Lemma FlushHead_inv now (r : ValueRing) l r' :
  FlushHead now r = (l, Ok r') →
  l = [] ∧ 0 ≤ head r < len r ∧
  r' = {| interval := interval r;
          values := <[Z.to_nat (head r) := {| Time := now; val := aggregator r |}]> (values r);
          head := if head r >=? len r - 1 then 0 else head r + 1;
          aggregator := None; previousDiff := previousDiff r |}.
Proof.
  unfold FlushHead. intros (l1 & vs & l2 & Hst & Hret & ->)%bind_inv_Ok.
  apply store_inv in Hst as (-> & Hi & ->).
  injection Hret as <- <-. done.
Qed.

Lemma FlushHead_ok now (r : ValueRing) :
  0 ≤ head r < len r →
  FlushHead now r =
    mret {| interval := interval r;
            values := <[Z.to_nat (head r) := {| Time := now; val := aggregator r |}]> (values r);
            head := if head r >=? len r - 1 then 0 else head r + 1;
            aggregator := None; previousDiff := previousDiff r |}.
Proof.
  intros Hi. unfold FlushHead. rewrite store_insert by done. by rewrite bind_ret_l.
Qed.

Lemma flushSlot_length i (vs : list TimedValue) l c vs' :
  flushSlot i vs = (l, Ok (c, vs')) → length vs' = length vs.
Proof.
  unfold flushSlot. intros (l1 & slot & l2 & Hix & Hk & ->)%bind_inv_Ok.
  destruct (val slot).
  - apply bind_inv_Ok in Hk as (l3 & vs1 & l4 & Hst & Hret & ->).
    apply store_inv in Hst as (_ & _ & ->). injection Hret as _ _ <-.
    by rewrite length_insert.
  - by injection Hk as _ _ <-.
Qed.

Lemma for_down_flushSlot_length n lo (vs : list TimedValue) l c vs' :
  for_down n lo flushSlot vs = (l, Ok (c, vs')) → length vs' = length vs.
Proof.
  revert vs l. induction n as [|n IH]; intros vs l; simpl.
  - by intros [= _ _ <-].
  - intros (l1 & [c1 vs1] & l2 & Hslot & Hk & ->)%bind_inv_Ok.
    apply flushSlot_length in Hslot. destruct c1.
    + apply IH in Hk. congruence.
    + injection Hk as _ _ <-. done.
Qed.

Lemma flush_inv start (r : ValueRing) l r' :
  flush start r = (l, Ok r') →
  head r' = head r ∧ len r' = len r ∧ interval r' = interval r ∧
  aggregator r' = aggregator r ∧ previousDiff r' = previousDiff r.
Proof.
  unfold flush. intros (l1 & [c1 vs1] & l2 & H1 & Hk & ->)%bind_inv_Ok.
  apply for_down_flushSlot_length in H1. destruct c1.
  - apply bind_inv_Ok in Hk as (l3 & [c2 vs2] & l4 & H2 & Hret & ->).
    apply for_down_flushSlot_length in H2. injection Hret as _ <-.
    unfold len; simpl. repeat split; congruence.
  - injection Hk as _ <-. unfold len; simpl. repeat split; congruence.
Qed.

Lemma GetDiff_inv (r : ValueRing) l d r' :
  GetDiff r = (l, Ok (d, r')) →
  ∃ l0 d0, getDiffInterval r (interval r) = (l0, Ok d0) ∧
    if PrimFloat.ltb d0 0
    then d = previousDiff r ∧ ∃ l1, flush (head r - 2) r = (l1, Ok r') ∧ l = l0 ++ l1
    else d = d0 ∧ r' = with_previousDiff d0 r ∧ l = l0.
Proof.
  unfold GetDiff. intros (l0 & d0 & l2 & Hd & Hk & ->)%bind_inv_Ok.
  exists l0, d0. split; [done|]. destruct (PrimFloat.ltb d0 0).
  - apply bind_inv_Ok in Hk as (l3 & r1 & l4 & Hfl & Hret & ->).
    injection Hret as <- <- <-. split; [done|]. exists l3. by rewrite app_nil_r.
  - injection Hk as <- <- <-. by rewrite app_nil_r.
Qed.

Lemma GetDiff_nonneg (r : ValueRing) l d :
  getDiffInterval r (interval r) = (l, Ok d) → PrimFloat.ltb d 0 = false →
  GetDiff r = (l, Ok (d, with_previousDiff d r)).
Proof.
  intros Hd Hlt. unfold GetDiff. rewrite (bind_Ok _ _ _ _ Hd), Hlt. simpl.
  by rewrite app_nil_r.
Qed.

Lemma GetDiff_neg (r : ValueRing) l d l' r' :
  getDiffInterval r (interval r) = (l, Ok d) → PrimFloat.ltb d 0 = true →
  flush (head r - 2) r = (l', Ok r') →
  GetDiff r = (l ++ l', Ok (previousDiff r, r')).
Proof.
  intros Hd Hlt Hfl. unfold GetDiff. rewrite (bind_Ok _ _ _ _ Hd), Hlt.
  rewrite (bind_Ok _ _ _ _ Hfl). simpl. by rewrite app_nil_r.
Qed.

(** ** The backward search *)

Lemma scan_app before (l1 l2 : list TimedValue) res :
  scan before (l1 ++ l2) res =
    if (scan before l1 res).1 then scan before l2 (scan before l1 res).2
    else (false, (scan before l1 res).2).
Proof.
  revert res. induction l1 as [|s l1 IH]; intros res; simpl; [done|].
  destruct (val s); [|done].
  destruct (time.Before (Time s) before); [done|]. apply IH.
Qed.

Lemma walkRing_lookup (r : ValueRing) before i slot res :
  0 ≤ i → values r !! Z.to_nat i = Some slot →
  walkRing r before i res = mret (scan before [slot] res).
Proof.
  intros Hi Hs. unfold walkRing. rewrite (index_lookup _ _ _ Hi Hs), bind_ret_l.
  simpl. destruct (val slot); [|done]. by destruct (time.Before _ _).
Qed.

Lemma for_down_walkRing (r : ValueRing) before n lo res :
  0 ≤ lo → lo + Z.of_nat n ≤ len r →
  for_down n lo (walkRing r before) res =
    mret (scan before (reverse (take n (drop (Z.to_nat lo) (values r)))) res).
Proof.
  intros Hlo. revert res. induction n as [|n IH]; intros res Hn; [done|].
  assert (is_Some (values r !! Z.to_nat (lo + Z.of_nat n))) as [slot Hslot].
  { apply lookup_lt_is_Some. unfold len in Hn. lia. }
  cbn [for_down]. rewrite (walkRing_lookup _ _ _ slot) by (done || lia).
  rewrite bind_ret_l.
  assert (drop (Z.to_nat lo) (values r) !! n = Some slot) as Hd.
  { rewrite lookup_drop. rewrite <- Hslot. f_equal. lia. }
  rewrite (take_S_r _ _ _ Hd), reverse_app. change (reverse [slot]) with [slot].
  rewrite (scan_app before [slot]).
  destruct (scan before [slot] res) as [[] res1] eqn:Hs; cbn [fst snd].
  - apply IH. lia.
  - done.
Qed.

Lemma get_history (r : ValueRing) before :
  0 ≤ head r ≤ len r →
  get r before = mret (scan before (history r) zeroTimedValue).2.
Proof.
  intros Hh. unfold get, history.
  rewrite for_down_walkRing by lia. rewrite bind_ret_l.
  change (drop (Z.to_nat 0) (values r)) with (values r).
  rewrite scan_app.
  destruct (scan before (reverse (take (Z.to_nat (head r)) (values r))) zeroTimedValue)
    as [[] res1]; cbn [fst snd]; [|done].
  rewrite for_down_walkRing by lia. rewrite bind_ret_l.
  rewrite take_ge; [by destruct (scan _ _ _)|].
  rewrite length_drop. unfold len. lia.
Qed.

(** * Properties *)

Section wraparound.

(** C7. After five scalar values are committed with [Add] into a ring of
    capacity 3, the storage holds exactly the 3rd, 4th and 5th value (the
    4th and 5th have overwritten the 1st and 2nd), and [GetHead] returns
    the 5th. *)
Theorem C7_wraparound_retention window t1 t2 t3 t4 t5 v1 v2 v3 v4 v5 :
  (r ← five_commits window t1 t2 t3 t4 t5 v1 v2 v3 v4 v5;
   h ← GetHead r;
   mret (values r, head r, h))
  = ([], Ok ([ {| Time := t4; val := Some (StoredValue v4) |};
               {| Time := t5; val := Some (StoredValue v5) |};
               {| Time := t3; val := Some (StoredValue v3) |} ],
             2, Some (StoredValue v5))).
Proof. reflexivity. Qed.

End wraparound.

(** ** The head index *)

Section head_index.

Lemma NewValueRing_inv (factory : ValueRingFactory) l (r : ValueRing) :
  NewValueRing factory = (l, Ok r) →
  0 ≤ Length factory ∧ head r = 0 ∧ len r = Length factory.
Proof.
  unfold NewValueRing. destruct (Length factory <? 0) eqn:Hneg; [intros [=]|].
  apply Z.ltb_ge in Hneg. intros [= _ <-]. unfold len. cbn.
  rewrite length_replicate. lia.
Qed.

Lemma AddToHead_inv v (r : ValueRing) l r' :
  AddToHead v r = (l, Ok r') → head r' = head r ∧ values r' = values r.
Proof.
  unfold AddToHead. destruct (aggregator r) as [agg|].
  - intros (l1 & sum & l2 & _ & Hret & _)%bind_inv_Ok. by injection Hret as _ <-.
  - by intros [= _ <-].
Qed.

Lemma step_head_bounds (r r' : ValueRing) :
  step r r' → 0 ≤ head r < len r → 0 ≤ head r' < len r' ∧ len r' = len r.
Proof.
  intros Hstep Hinv. destruct Hstep as [v r l r' H|now r l r' H|r l d r' H].
  - apply AddToHead_inv in H as [Hh Hv]. unfold len in *. rewrite Hh, Hv. lia.
  - apply FlushHead_inv in H as (_ & _ & ->). unfold len in *. cbn.
    rewrite length_insert. destruct (head r >=? _) eqn:Hge; [lia|].
    apply Zgeb_false in Hge. lia.
  - apply GetDiff_inv in H as (l0 & d0 & _ & H). destruct (PrimFloat.ltb d0 0).
    + destruct H as (_ & l1 & (Hh & Hl & _)%flush_inv & _). lia.
    + destruct H as (_ & -> & _). unfold len in *. cbn. lia.
Qed.

Lemma reachable_head_bounds factory (r : ValueRing) :
  1 ≤ Length factory → reachable factory r →
  0 ≤ head r < len r ∧ len r = Length factory.
Proof.
  intros Hcap Hr. induction Hr as [r Hnew|r r' _ IH Hstep].
  - apply NewValueRing_inv in Hnew. lia.
  - destruct IH as [Hb Hl]. apply step_head_bounds in Hstep; [lia|done].
Qed.

(** [Add] and [Increment] are made of steps. *)
Lemma reachable_Add factory (r r' : ValueRing) now v l :
  reachable factory r → Add now v r = (l, Ok r') → reachable factory r'.
Proof.
  intros Hr. unfold Add. intros (l1 & r1 & l2 & Hadd & Hflush & _)%bind_inv_Ok.
  eapply reachable_step; [eapply reachable_step; [exact Hr|]|].
  - eapply step_AddToHead, Hadd.
  - eapply step_FlushHead, Hflush.
Qed.

Lemma reachable_Increment factory (r r' : ValueRing) now v l :
  reachable factory r → Increment now v r = (l, Ok r') → reachable factory r'.
Proof.
  intros Hr. unfold Increment. intros (l1 & hd & l2 & _ & Hk & _)%bind_inv_Ok.
  destruct (val hd) as [cur|].
  - apply bind_inv_Ok in Hk as (l3 & sum & l4 & _ & Hadd & _).
    by eapply reachable_Add.
  - by eapply reachable_Add.
Qed.

(** C8. In every state of a ring created with capacity at least 1, [head]
    lies within the slice; [FlushHead] writes the slot at [head] and moves
    [head] to [(head + 1) mod capacity], so [head] is the next slot to be
    written, one past the slot written last; [GetDiff], [AddToHead] and
    [flush] leave [head] as it is, and [GetHead] returns no new ring. *)
Theorem C8_head_index_invariant (factory : ValueRingFactory) (r : ValueRing) :
  1 ≤ Length factory → reachable factory r →
  (0 ≤ head r < len r ∧ len r = Length factory)
  ∧ (∀ now, ∃ r',
        FlushHead now r = ([], Ok r')
        ∧ values r' !! Z.to_nat (head r) = Some {| Time := now; val := aggregator r |}
        ∧ head r' = (head r + 1) mod len r
        ∧ getHead r' = mret {| Time := now; val := aggregator r |})
  ∧ (∀ l d r', GetDiff r = (l, Ok (d, r')) → head r' = head r)
  ∧ (∀ v l r', AddToHead v r = (l, Ok r') → head r' = head r)
  ∧ (∀ start l r', flush start r = (l, Ok r') → head r' = head r).
Proof.
  intros Hcap Hr. destruct (reachable_head_bounds _ _ Hcap Hr) as [Hb Hl].
  split; [done|]. split; [|split; [|split]].
  - intros now. eexists. rewrite FlushHead_ok by done. split; [reflexivity|].
    assert (Z.to_nat (head r) < length (values r))%nat as Hlt
      by (unfold len in Hb; lia).
    cbn [values head]. split; [by apply list_lookup_insert_eq|].
    unfold getHead. cbn [values head].
    replace (len (mkRing _ _ _ _ _)) with (len r)
      by (unfold len; cbn [values]; by rewrite length_insert).
    destruct (head r >=? len r - 1) eqn:Hge.
    + apply Z.geb_le in Hge. split.
      * replace (head r + 1) with (len r) by lia. by rewrite Z_mod_same_full.
      * change (0 <=? 0) with true. cbv iota. apply index_lookup; [lia|].
        replace (Z.to_nat (len r - 1)) with (Z.to_nat (head r)) by lia.
        by apply list_lookup_insert_eq.
    + apply Zgeb_false in Hge. split.
      * rewrite Z.mod_small; lia.
      * destruct (head r + 1 <=? 0) eqn:Hle; [apply Z.leb_le in Hle; lia|].
        apply index_lookup; [lia|].
        replace (head r + 1 - 1) with (head r) by lia.
        by apply list_lookup_insert_eq.
  - intros l d r' H. apply GetDiff_inv in H as (l0 & d0 & _ & H).
    destruct (PrimFloat.ltb d0 0).
    + by destruct H as (_ & l1 & (Hh & _)%flush_inv & _).
    + by destruct H as (_ & -> & _).
  - intros v l r' H. by apply AddToHead_inv in H as [? _].
  - intros start l r' H. by apply flush_inv in H as [? _].
Qed.

End head_index.

(** ** Repeated reads *)

Section reads.

Lemma getHead_inv (r : ValueRing) l hd :
  getHead r = (l, Ok hd) → l = [].
Proof. unfold getHead. by intros (-> & _)%index_inv. Qed.

Lemma GetHead_getHead (r : ValueRing) l hd :
  getHead r = (l, Ok hd) → GetHead r = mret (val hd).
Proof.
  intros H. pose proof (getHead_inv _ _ _ H) as ->.
  unfold GetHead. by rewrite (bind_Ok _ _ _ _ H).
Qed.

Lemma GetHead_twice (r : ValueRing) :
  (h1 ← GetHead r; h2 ← GetHead r; mret (h1, h2)) = (h ← GetHead r; mret (h, h)).
Proof.
  destruct (getHead r) as [l [hd|p]] eqn:Hhd.
  - rewrite (GetHead_getHead _ _ _ Hhd). by rewrite !bind_ret_l.
  - unfold GetHead. by rewrite Hhd.
Qed.

(** [getDiffInterval] reads the slots and [head] only. *)
Lemma getDiffInterval_with_previousDiff d (r : ValueRing) before :
  getDiffInterval (with_previousDiff d r) before = getDiffInterval r before.
Proof. reflexivity. Qed.

(** C5, as far as it holds. [GetHead] called twice in a row returns the same
    value twice. [GetDiff] called twice in a row returns the same value
    twice, and leaves the same ring, when the diff computed by the first call
    is not negative; [GetHead] is not affected by such a call. *)
Theorem C5_repeated_reads (r : ValueRing) l d :
  getDiffInterval r (interval r) = (l, Ok d) → PrimFloat.ltb d 0 = false →
  (h1 ← GetHead r; h2 ← GetHead r; mret (h1, h2)) = (h ← GetHead r; mret (h, h))
  ∧ ∃ r', GetDiff r = (l, Ok (d, r')) ∧ GetDiff r' = (l, Ok (d, r'))
          ∧ GetHead r' = GetHead r.
Proof.
  intros Hd Hnn. split; [apply GetHead_twice|].
  exists (with_previousDiff d r). split; [by apply GetDiff_nonneg|].
  split; [|reflexivity].
  by apply (GetDiff_nonneg (with_previousDiff d r)).
Qed.

End reads.

(** ** The fallback value *)

Section fallback.

Lemma getDiffInterval_empty (r : ValueRing) hd before :
  getHead r = mret hd → val hd = None →
  getDiffInterval r before = mret bitflow.zero.
Proof.
  intros Hhd Hnil. unfold getDiffInterval. by rewrite Hhd, bind_ret_l, Hnil.
Qed.

Lemma getDiffInterval_found (r : ValueRing) before hd headVal previous :
  getHead r = mret hd → val hd = Some headVal →
  get r (time.Add (Time hd) (time.neg before)) = mret previous →
  is_Some (val previous) →
  getDiffInterval r before =
    if time.Sub (Time hd) (Time previous) =? 0 then mret bitflow.zero
    else DiffValue headVal (val previous) (time.Sub (Time hd) (Time previous)).
Proof.
  intros Hhd Hval Hget [prevVal Hprev]. unfold getDiffInterval.
  rewrite Hhd, bind_ret_l, Hval, Hget, bind_ret_l. by rewrite Hprev.
Qed.

(** C10. A [GetDiff] whose computed diff is not negative returns it and
    stores it as [previousDiff], whatever was stored before; the diff of an
    empty ring is such a diff, namely 0. From then on, until the next such
    call, a [GetDiff] whose computed diff is negative returns that stored
    value: after an edge-case query it returns 0, not an earlier rate. *)
Theorem C10_previousDiff_overwritten (r : ValueRing) l d :
  getDiffInterval r (interval r) = (l, Ok d) → PrimFloat.ltb d 0 = false →
  GetDiff r = (l, Ok (d, with_previousDiff d r))
  ∧ previousDiff (with_previousDiff d r) = d
  ∧ (∀ hd, getHead r = mret hd → val hd = None → d = bitflow.zero)
  ∧ (∀ (r1 : ValueRing) l1 d1 l2 r2,
        previousDiff r1 = d →
        getDiffInterval r1 (interval r1) = (l1, Ok d1) →
        PrimFloat.ltb d1 0 = true →
        flush (head r1 - 2) r1 = (l2, Ok r2) →
        GetDiff r1 = (l1 ++ l2, Ok (d, r2))).
Proof.
  intros Hd Hnn. split; [by apply GetDiff_nonneg|]. split; [done|]. split.
  - intros hd Hhd Hnil.
    rewrite (getDiffInterval_empty _ _ _ Hhd Hnil) in Hd. by injection Hd as _ <-.
  - intros r1 l1 d1 l2 r2 <- Hd1 Hneg Hfl. by apply GetDiff_neg with d1.
Qed.

(** The writes that commit samples keep [previousDiff]. *)
Lemma Add_previousDiff (r r' : ValueRing) l now v :
  Add now v r = (l, Ok r') → previousDiff r' = previousDiff r.
Proof.
  unfold Add. intros (l1 & r1 & l2 & Hadd & Hfl & _)%bind_inv_Ok.
  apply FlushHead_inv in Hfl as (_ & _ & ->). cbn.
  unfold AddToHead in Hadd. destruct (aggregator r).
  - apply bind_inv_Ok in Hadd as (? & ? & ? & _ & Hret & _). by injection Hret as _ <-.
  - by injection Hadd as _ <-.
Qed.

End fallback.

(** ** The operations of a value *)

Section value_operations.

(** C9. For a scalar [v] and a value [x] of another variant, [DiffValue]
    logs one error and returns 0, and [AddValue] logs one error and returns
    the scalar 0; neither panics. *)
Theorem C9_mismatched_variant_neutral (v : bitflow.Value)
    (x : option LogbackValue) (interval : time.Duration) :
  mismatched x →
  StoredValue_DiffValue v x interval = ([CannotDiff v x], Ok bitflow.zero)
  ∧ StoredValue_AddValue v x = ([CannotAdd v x], Ok (StoredValue bitflow.zero))
  ∧ DiffValue (StoredValue v) x interval = ([CannotDiff v x], Ok bitflow.zero)
  ∧ AddValue (StoredValue v) x = ([CannotAdd v x], Ok (StoredValue bitflow.zero)).
Proof. destruct x as [[| |]|]; cbn; intros []; done. Qed.

(** C6, as far as it holds. [DiffValue] has no guard of its own; the guard
    against a zero interval is in [getDiffInterval]. When the head and the
    sample found by [get] carry the same timestamp, it returns 0 and calls no
    [DiffValue], and so does [GetDiff]. Otherwise it calls [DiffValue] with
    their distance: a [Duration] other than 0, whose [Seconds()], the divisor
    of the scalar diff, is a [float64] other than 0. So on the path of
    [GetDiff] the division is never evaluated with a zero divisor. *)
Theorem C6_zero_interval_guard (r : ValueRing) hd headVal previous :
  getHead r = mret hd → val hd = Some headVal →
  get r (time.Add (Time hd) (time.neg (interval r))) = mret previous →
  is_Some (val previous) →
  (time.Sub (Time hd) (Time previous) = 0 →
     getDiffInterval r (interval r) = mret bitflow.zero
     ∧ GetDiff r = mret (bitflow.zero, with_previousDiff bitflow.zero r))
  ∧ (time.Sub (Time hd) (Time previous) ≠ 0 →
     getDiffInterval r (interval r)
       = DiffValue headVal (val previous) (time.Sub (Time hd) (Time previous))
     ∧ PrimFloat.eqb (time.Seconds (time.Sub (Time hd) (Time previous))) 0 = false
     ∧ ∀ v p, headVal = StoredValue v → val previous = Some (StoredValue p) →
         getDiffInterval r (interval r)
         = mret (PrimFloat.div (PrimFloat.sub v p)
                   (time.Seconds (time.Sub (Time hd) (Time previous))))).
Proof.
  intros Hhd Hval Hget Hprev.
  pose proof (getDiffInterval_found _ _ _ _ _ Hhd Hval Hget Hprev) as Hd.
  split.
  - intros Hz. rewrite Hz in Hd. cbn in Hd. split; [done|].
    by apply GetDiff_nonneg.
  - intros Hnz. pose proof Hnz as Hnz'. apply Z.eqb_neq in Hnz'.
    rewrite Hnz' in Hd. split; [done|]. split.
    + apply Seconds_not_zero; [apply Sub_range|done].
    + intros v p -> Hp. rewrite Hd, Hp. done.
Qed.

End value_operations.

(** ** Short history *)

Section short_history.

Lemma scan_recent before (slots : list TimedValue) res :
  Forall (λ s, is_Some (val s)) slots →
  Forall (λ s, time.Before (Time s) before = false) slots →
  scan before slots res = (true, default res (last slots)).
Proof.
  intros Hsome. revert res. induction Hsome as [|s slots [v Hv] _ IH]; intros res Hrecent.
  - done.
  - inversion_clear Hrecent as [|?? Hs Hrest]. cbn [scan]. rewrite Hv, Hs, IH by done.
    rewrite (last_cons s). by destruct (last slots).
Qed.

Lemma scan_empty_run before (slots : list TimedValue) res :
  slots ≠ [] → Forall (λ s, val s = None) slots →
  scan before slots res = (false, res).
Proof.
  intros Hne Hnil. destruct Hnil as [|s slots Hs _]; [done|].
  cbn [scan]. by rewrite Hs.
Qed.

Lemma getHead_lookup (r : ValueRing) hd :
  0 < head r → values r !! Z.to_nat (head r - 1) = Some hd → getHead r = mret hd.
Proof.
  intros Hpos Hhd. unfold getHead.
  destruct (head r <=? 0) eqn:Hle; [apply Z.leb_le in Hle; lia|].
  apply index_lookup; [lia|done].
Qed.

(** C2, as far as it holds. In a ring with fewer commits than its capacity
    (the committed samples [oldest :: later] fill the slots below [head], the
    slots from [head] on are empty) in which no sample is earlier than the
    head's timestamp minus the window, the diff is computed against the
    oldest sample: it is 0 when that sample carries the head's timestamp, as
    it does when the head is the only sample, and then [GetDiff] returns 0;
    otherwise it is what [DiffValue] gives for the head, the oldest sample
    and their distance. *)
Theorem C2_short_history (r : ValueRing) (oldest : TimedValue)
    (later empties : list TimedValue) (hd : TimedValue) (headVal : LogbackValue) :
  values r = (oldest :: later) ++ empties →
  head r = Z.of_nat (length (oldest :: later)) →
  empties ≠ [] → Forall (λ s, val s = None) empties →
  Forall (λ s, is_Some (val s)) (oldest :: later) →
  last (oldest :: later) = Some hd → val hd = Some headVal →
  Forall (λ s, time.Before (Time s)
                 (time.Add (Time hd) (time.neg (interval r))) = false)
         (oldest :: later) →
  getDiffInterval r (interval r)
    = (if time.Sub (Time hd) (Time oldest) =? 0 then mret bitflow.zero
       else DiffValue headVal (val oldest) (time.Sub (Time hd) (Time oldest)))
  ∧ (time.Sub (Time hd) (Time oldest) = 0 →
       GetDiff r = mret (bitflow.zero, with_previousDiff bitflow.zero r))
  ∧ (later = [] → time.Sub (Time hd) (Time oldest) = 0).
Proof.
  intros Hvalues Hhead Hne Hnil Hsome Hlast HheadVal Hrecent.
  set (committed := oldest :: later) in *.
  assert (getHead r = mret hd) as HgetHead.
  { apply getHead_lookup; [rewrite Hhead; cbn; lia|].
    rewrite Hvalues, Hhead. rewrite last_lookup in Hlast.
    replace (Z.to_nat (Z.of_nat (length committed) - 1)) with (pred (length committed)) by lia.
    rewrite lookup_app_l; [done|]. cbn. lia. }
  assert (get r (time.Add (Time hd) (time.neg (interval r))) = mret oldest) as Hget.
  { rewrite get_history by (unfold len; rewrite Hhead, Hvalues, length_app; lia).
    unfold history. rewrite Hhead, Nat2Z.id, Hvalues.
    rewrite take_app_length, drop_app_length, scan_app.
    rewrite scan_recent by (by apply Forall_reverse).
    cbn [fst snd]. rewrite last_reverse. cbn [head committed default].
    rewrite scan_empty_run; [done| |by apply Forall_reverse].
    intros Hrev. apply (f_equal reverse) in Hrev. by rewrite reverse_involutive in Hrev. }
  assert (is_Some (val oldest)) as Holdest by (by inversion Hsome).
  pose proof (getDiffInterval_found _ _ _ _ _ HgetHead HheadVal Hget Holdest) as Hd.
  split; [done|]. split.
  - intros Hz. rewrite Hz in Hd. by apply GetDiff_nonneg.
  - intros ->. injection Hlast as <-. unfold time.Sub. rewrite Z.sub_diag. done.
Qed.

End short_history.

(** ** Commits into a fresh ring *)

Section commits.

Lemma ValueRing_AddValue_next now v (r : ValueRing) :
  aggregator r = None → 0 ≤ head r → head r < len r - 1 →
  ValueRing_AddValue now v r =
    mret {| interval := interval r;
            values := <[Z.to_nat (head r) := stored (now, v)]> (values r);
            head := head r + 1;
            aggregator := None; previousDiff := previousDiff r |}.
Proof.
  intros Hagg Hlo Hhi. unfold ValueRing_AddValue, Add, AddToHead.
  rewrite Hagg, bind_ret_l, FlushHead_ok by (cbn; unfold len in *; cbn; lia).
  cbn [interval values head aggregator previousDiff].
  replace (len (mkRing _ _ _ _ _)) with (len r) by done.
  destruct (head r >=? len r - 1) eqn:Hge; [apply Z.geb_le in Hge; lia|done].
Qed.

Lemma AddAll_short samples (pre : list TimedValue) m (r : ValueRing) :
  values r = pre ++ replicate (length samples + S m) zeroTimedValue →
  head r = Z.of_nat (length pre) → aggregator r = None →
  AddAll samples r =
    mret {| interval := interval r;
            values := pre ++ (stored <$> samples) ++ replicate (S m) zeroTimedValue;
            head := Z.of_nat (length pre + length samples);
            aggregator := None; previousDiff := previousDiff r |}.
Proof.
  revert pre r. induction samples as [|[now v] rest IH]; intros pre r Hvalues Hhead Hagg.
  - destruct r; cbn in *. rewrite Nat.add_0_r. by subst.
  - cbn [AddAll]. rewrite ValueRing_AddValue_next; [|done|lia|].
    2:{ unfold len. rewrite Hvalues, Hhead, length_app, length_replicate. cbn. lia. }
    rewrite bind_ret_l, (IH (pre ++ [stored (now, v)])).
    + cbn [interval previousDiff].
      do 2 f_equal; [by rewrite <- app_assoc|rewrite length_app; cbn; lia].
    + cbn [values]. rewrite Hvalues, Hhead, Nat2Z.id.
      rewrite insert_app_r_alt, Nat.sub_diag by done. cbn. by rewrite <- app_assoc.
    + cbn [head]. rewrite Hhead, length_app. cbn. lia.
    + done.
Qed.

(** Fewer commits than slots: the samples, in the order of the commits, and
    then the slots that are still empty. *)
Lemma AddAll_fresh samples (capacity : Z) window :
  Z.of_nat (length samples) < capacity →
  (r ← NewValueRing {| Length := capacity; Interval := window |}; AddAll samples r) =
    mret {| interval := window;
            values := (stored <$> samples)
                      ++ replicate (Z.to_nat capacity - length samples) zeroTimedValue;
            head := Z.of_nat (length samples);
            aggregator := None; previousDiff := bitflow.zero |}.
Proof.
  intros Hlt. unfold NewValueRing. cbn [Length Interval].
  destruct (capacity <? 0) eqn:Hneg; [apply Z.ltb_lt in Hneg; lia|].
  rewrite bind_ret_l.
  destruct (Z.to_nat capacity - length samples)%nat as [|m] eqn:Hm; [lia|].
  rewrite (AddAll_short samples [] m); [done| |done..].
  cbn [values app]. f_equal. lia.
Qed.

Lemma get_short_history (r : ValueRing) (committed empties : list TimedValue) before :
  values r = committed ++ empties → head r = Z.of_nat (length committed) →
  empties ≠ [] → Forall (λ s, val s = None) empties →
  get r before = mret (scan before (reverse committed) zeroTimedValue).2.
Proof.
  intros Hvalues Hhead Hne Hnil.
  rewrite get_history by (unfold len; rewrite Hhead, Hvalues, length_app; lia).
  unfold history. rewrite Hhead, Nat2Z.id, Hvalues.
  rewrite take_app_length, drop_app_length, scan_app.
  destruct (scan before (reverse committed) zeroTimedValue) as [[] res]; [|done].
  cbn [fst snd]. rewrite scan_empty_run; [done| |by apply Forall_reverse].
  intros Hrev. apply (f_equal reverse) in Hrev. by rewrite reverse_involutive in Hrev.
Qed.

End commits.

(** ** The rate over the window *)

Section rate.

Lemma bind_assoc {A B C} (m : Go A) (f : A → Go B) (g : B → Go C) :
  ((m ≫= f) ≫= g) = (m ≫= λ a, f a ≫= g).
Proof.
  destruct m as [l [a|p]]; [|done]. unfold mbind, Go_bind, go_bind.
  destruct (f a) as [l1 [b|p]]; [|done].
  destruct (g b) as [l2 res]. by rewrite app_assoc.
Qed.

(** C4. With a window of 2s and the samples (t=0, 100), (t=1s, 150),
    (t=2s, 200) committed in that order into a ring that can hold them,
    [GetDiff] returns (200 - 100) / 2 = 50. *)
Theorem C4_rate_example (capacity : Z) :
  3 ≤ capacity → rate_example capacity = mret 50%float.
Proof.
  intros Hcap. destruct (decide (capacity = 3)) as [->|Hne]; [reflexivity|].
  unfold rate_example. rewrite <- bind_assoc, AddAll_fresh by (cbn; lia).
  rewrite bind_ret_l.
  destruct (Z.to_nat capacity - length rate_samples)%nat as [|m] eqn:Hm;
    [cbn in Hm; lia|].
  match goal with |- (GetDiff ?ring ≫= _) = _ => set (r := ring) end.
  assert (getDiffInterval r (interval r) = mret 50%float) as Hd.
  { rewrite (getDiffInterval_found r _ (stored (2 * time.Second, 200%float))
               (StoredValue 200%float) (stored (0, 100%float))).
    - reflexivity.
    - by apply getHead_lookup.
    - reflexivity.
    - rewrite (get_short_history r (stored <$> rate_samples)
                 (replicate (S m) zeroTimedValue)); [reflexivity|done..|].
      by apply Forall_replicate.
    - by eexists. }
  by rewrite (GetDiff_nonneg _ _ _ Hd).
Qed.

End rate.

(** ** Overflow recovery *)

Section overflow.

Lemma flushSlot_outside i (vs : list TimedValue) l c vs' (j : nat) :
  flushSlot i vs = (l, Ok (c, vs')) → j ≠ Z.to_nat i → vs' !! j = vs !! j.
Proof.
  unfold flushSlot. intros (l1 & slot & l2 & _ & Hk & _)%bind_inv_Ok Hj.
  destruct (val slot).
  - apply bind_inv_Ok in Hk as (l3 & vs1 & l4 & Hst & Hret & _).
    apply store_inv in Hst as (_ & _ & ->). injection Hret as _ _ <-.
    by apply list_lookup_insert_ne.
  - by injection Hk as _ _ <-.
Qed.

(** A loop of [flush] writes only to the slots it walks. *)
Lemma for_down_flushSlot_outside n lo (vs : list TimedValue) l c vs' (j : nat) :
  for_down n lo flushSlot vs = (l, Ok (c, vs')) → 0 ≤ lo →
  (j < Z.to_nat lo ∨ Z.to_nat lo + n ≤ j)%nat → vs' !! j = vs !! j.
Proof.
  revert vs l. induction n as [|n IH]; intros vs l; simpl.
  - by intros [= _ _ <-].
  - intros (l1 & [c1 vs1] & l2 & Hslot & Hk & _)%bind_inv_Ok Hlo Hj.
    apply flushSlot_outside with (j := j) in Hslot; [|lia]. destruct c1.
    + rewrite <- Hslot. apply (IH _ _ Hk); lia.
    + by injection Hk as _ _ <-.
Qed.

(** While [head] is 2 or more, [flush(head - 2)] does not touch the slot
    of the newest sample. *)
Lemma flush_keeps_newest (r : ValueRing) l r' :
  2 ≤ head r → flush (head r - 2) r = (l, Ok r') →
  values r' !! Z.to_nat (head r - 1) = values r !! Z.to_nat (head r - 1).
Proof.
  intros Hhead. unfold flush.
  destruct (head r - 2 <? 0) eqn:Hneg; [apply Z.ltb_lt in Hneg; lia|].
  intros (l1 & [c1 vs1] & l2 & H1 & Hk & _)%bind_inv_Ok.
  apply for_down_flushSlot_outside with (j := Z.to_nat (head r - 1)) in H1; [|lia..].
  destruct c1.
  - apply bind_inv_Ok in Hk as (l3 & [c2 vs2] & l4 & H2 & Hret & _).
    apply for_down_flushSlot_outside with (j := Z.to_nat (head r - 1)) in H2; [|lia..].
    injection Hret as _ <-. cbn. congruence.
  - injection Hk as _ <-. done.
Qed.

Lemma flushSlot_empty i (vs : list TimedValue) slot :
  0 ≤ i → vs !! Z.to_nat i = Some slot → val slot = None →
  flushSlot i vs = mret (false, vs).
Proof.
  intros Hi Hslot Hnil. unfold flushSlot.
  by rewrite (index_lookup _ _ slot), bind_ret_l, Hnil.
Qed.

Lemma flushSlot_clear i (vs : list TimedValue) slot :
  0 ≤ i → vs !! Z.to_nat i = Some slot → is_Some (val slot) →
  flushSlot i vs
  = mret (true, <[Z.to_nat i := {| Time := Time slot; val := None |}]> vs).
Proof.
  intros Hi Hslot [v Hv]. unfold flushSlot.
  rewrite (index_lookup _ _ slot), bind_ret_l, Hv by done.
  rewrite store_insert; [by rewrite bind_ret_l|].
  apply lookup_lt_Some in Hslot. lia.
Qed.

Lemma for_down_flushSlot_empty n lo (vs : list TimedValue) slot :
  0 ≤ lo → vs !! Z.to_nat (lo + Z.of_nat n) = Some slot → val slot = None →
  for_down (S n) lo flushSlot vs = mret (false, vs).
Proof.
  intros Hlo Hslot Hnil. cbn [for_down].
  by rewrite (flushSlot_empty _ _ slot), bind_ret_l by (lia || done).
Qed.

Lemma for_down_flushSlot_clear n lo (vs : list TimedValue) slot :
  0 ≤ lo → vs !! Z.to_nat (lo + Z.of_nat n) = Some slot → is_Some (val slot) →
  for_down (S n) lo flushSlot vs =
    for_down n lo flushSlot
      (<[Z.to_nat (lo + Z.of_nat n) := {| Time := Time slot; val := None |}]> vs).
Proof.
  intros Hlo Hslot Hsome. cbn [for_down].
  by rewrite (flushSlot_clear _ _ slot), bind_ret_l by (lia || done).
Qed.

(** In a ring of capacity 4 or more the example ends as the specification
    says: the same diff twice, and only the newest sample left. *)
Lemma overflow_example_large_ring (capacity : Z) :
  4 ≤ capacity →
  overflow_example capacity
  = mret (10%float, 10%float, Some (StoredValue 5%float),
          [None; None; Some (StoredValue 5%float)]
          ++ replicate (Z.to_nat capacity - 3) None).
Proof.
  intros Hcap. unfold overflow_example, NewValueRing. cbn [Length Interval].
  destruct (capacity <? 0) eqn:Hneg; [apply Z.ltb_lt in Hneg; lia|].
  destruct (Z.to_nat capacity) as [|[|[|[|m]]]] eqn:Hm; try lia.
  rewrite bind_ret_l.
  rewrite ValueRing_AddValue_next by (done || (unfold len; cbn [values head]; rewrite ?length_insert, ?length_replicate; lia)).
  rewrite bind_ret_l.
  rewrite ValueRing_AddValue_next by (done || (unfold len; cbn [values head]; rewrite ?length_insert, ?length_replicate; lia)).
  rewrite bind_ret_l. cbn [interval values head aggregator previousDiff].
  change (Z.to_nat 0) with 0%nat. change (Z.to_nat (0 + 1)) with 1%nat.
  cbn [replicate insert list_insert].
  match goal with |- (GetDiff ?ring ≫= _) = _ => set (r2 := ring) end.
  assert (GetDiff r2 = mret (10%float, with_previousDiff 10%float r2)) as ->.
  { apply GetDiff_nonneg; [|reflexivity].
    rewrite (getDiffInterval_found r2 _ (stored (1 * time.Second, 20%float))
               (StoredValue 20%float) (stored (0, 10%float)));
      [reflexivity|by apply getHead_lookup|reflexivity| |by eexists].
    rewrite (get_short_history r2 [stored (0, 10%float); stored (1 * time.Second, 20%float)]
               (zeroTimedValue :: zeroTimedValue :: replicate m zeroTimedValue));
      [reflexivity|done..|].
    repeat constructor. by apply Forall_replicate. }
  rewrite bind_ret_l.
  rewrite ValueRing_AddValue_next
    by (done || (unfold len; cbn [values head r2 with_previousDiff length]; lia)).
  rewrite bind_ret_l.
  cbn [interval values head aggregator previousDiff with_previousDiff r2].
  change (Z.to_nat (0 + 1 + 1)) with 2%nat. cbn [insert list_insert].
  match goal with |- (GetDiff ?ring ≫= _) = _ => set (r3 := ring) end.
  set (cleared := {| interval := 1 * time.Second;
       values := {| Time := 0; val := None |}
                 :: {| Time := 1 * time.Second; val := None |}
                 :: stored (2 * time.Second, 5%float)
                 :: zeroTimedValue :: replicate m zeroTimedValue;
       head := 3; aggregator := None; previousDiff := 10%float |} : ValueRing).
  assert (GetDiff r3 = mret (10%float, cleared)) as ->.
  { apply (GetDiff_neg r3 [] (-2.5)%float []); [|reflexivity|].
    - rewrite (getDiffInterval_found r3 _ (stored (2 * time.Second, 5%float))
                 (StoredValue 5%float) (stored (0, 10%float)));
        [reflexivity|by apply getHead_lookup|reflexivity| |by eexists].
      rewrite (get_short_history r3
                 [stored (0, 10%float); stored (1 * time.Second, 20%float);
                  stored (2 * time.Second, 5%float)]
                 (zeroTimedValue :: replicate m zeroTimedValue));
        [reflexivity|done..|].
      repeat constructor. by apply Forall_replicate.
    - unfold flush. cbn [head r3]. change (0 + 1 + 1 + 1 - 2 <? 0) with false.
      cbv iota. change (Z.to_nat (0 + 1 + 1 + 1 - 2 + 1)) with 2%nat.
      rewrite (for_down_flushSlot_clear 1 0 _ (stored (1 * time.Second, 20%float)))
        by (done || by eexists).
      rewrite (for_down_flushSlot_clear 0 0 _ (stored (0, 10%float)))
        by (done || by eexists).
      cbn [for_down]. rewrite bind_ret_l.
      replace (Z.to_nat (len r3 - (0 + 1 + 1 + 1))) with (S m)
        by (unfold len; cbn [values r3 length]; rewrite length_replicate; lia).
      rewrite (for_down_flushSlot_empty m (0 + 1 + 1 + 1) _ zeroTimedValue);
        [by rewrite bind_ret_l|try done..].
      replace (Z.to_nat (0 + 1 + 1 + 1 + Z.of_nat m)) with (3 + m)%nat by lia.
      cbn. apply (lookup_replicate_2 (S m)). lia. }
  rewrite bind_ret_l.
  rewrite (GetHead_getHead cleared [] (stored (2 * time.Second, 5%float)))
    by (by apply getHead_lookup).
  rewrite bind_ret_l. cbn [values cleared fmap list_fmap val stored app snd].
  by rewrite fmap_replicate.
Qed.

(** C1 on the code. In a ring of capacity 3, and in one of capacity 2, the
    third [GetDiff] returns the diff of the second, but the flush also
    clears the newest sample: [GetHead] returns nil and no sample is left. *)
Theorem C1_overflow_recovery_loses_newest :
  overflow_example 3 = mret (10%float, 10%float, None, [None; None; None])
  ∧ overflow_example 2 = mret (10%float, 10%float, None, [None; None]).
Proof. split; reflexivity. Qed.

(** With [head = 2] the newest sample is the only one left. *)
Lemma flush_example_head_2 t1 t2 v1 v2 :
  flush_example 3 [(t1, v1); (t2, v2)]
  = mret (2, [None; Some (StoredValue v2); None], Some (StoredValue v2)).
Proof. reflexivity. Qed.

(** C3 on the code. At the wrapped positions [head = 0] (three commits into
    a ring of capacity 3) and [head = 1] (four commits), [flush(head - 2)]
    clears every slot, the newest sample included. *)
Theorem C3_flush_clears_newest_at_wrapped_head t1 t2 t3 t4 v1 v2 v3 v4 :
  flush_example 3 [(t1, v1); (t2, v2); (t3, v3)]
  = mret (0, [None; None; None], None)
  ∧ flush_example 3 [(t1, v1); (t2, v2); (t3, v3); (t4, v4)]
  = mret (1, [None; None; None], None).
Proof. split; reflexivity. Qed.

End overflow.

End verification.

(** * The properties at concrete rings *)

Lemma short_ring_committed :
  (r ← NewValueRing {| Length := 3; Interval := 2 * time.Second |};
   AddAll [(0, 100%float); (1 * time.Second, 150%float)] r) = mret short_ring.
Proof. reflexivity. Qed.

(** C2 as stated fails: [short_ring] has two commits in three slots and no
    sample earlier than the head's timestamp minus the window, and its
    [GetDiff] returns 50, not 0. *)
Lemma C2_short_history_nonzero_diff :
  Z.of_nat (length (filter (λ s, is_Some (val s)) (values short_ring))) < len short_ring
  ∧ getHead short_ring = mret (stored (1 * time.Second, 150%float))
  ∧ Forall (λ s, time.Before (Time s)
                   (time.Add (1 * time.Second) (time.neg (interval short_ring))) = false)
           (filter (λ s, is_Some (val s)) (values short_ring))
  ∧ GetDiff short_ring = mret (50%float, with_previousDiff 50%float short_ring)
  ∧ 50%float ≠ bitflow.zero.
Proof.
  split; [done|]. split; [done|]. split; [by repeat constructor|]. split; [done|].
  intros Heq. apply (f_equal (λ z, PrimFloat.eqb z 0)) in Heq. discriminate Heq.
Qed.

Lemma C2_short_history_witness :
  getDiffInterval short_ring (interval short_ring) = mret 50%float.
Proof.
  refine (proj1 (C2_short_history short_ring (stored (0, 100%float))
                   [stored (1 * time.Second, 150%float)] [zeroTimedValue]
                   (stored (1 * time.Second, 150%float)) (StoredValue 150%float)
                   eq_refl eq_refl _ _ _ eq_refl eq_refl _)).
  - discriminate.
  - repeat constructor.
  - repeat constructor; by eexists.
  - repeat constructor.
Defined.

Lemma C4_rate_example_witness :
  3 ≤ 5 ∧ rate_example (F := Empty_set) 5 = mret 50%float.
Proof. split; [lia|]. apply C4_rate_example. lia. Defined.

Lemma C5_repeated_reads_witness :
  GetDiff rising_ring = mret (10%float, with_previousDiff 10%float rising_ring)
  ∧ GetDiff (with_previousDiff 10%float rising_ring)
    = mret (10%float, with_previousDiff 10%float rising_ring).
Proof.
  destruct (C5_repeated_reads rising_ring [] 10%float eq_refl eq_refl)
    as [_ [r' [H1 [H2 _]]]].
  assert (r' = with_previousDiff 10%float rising_ring) as -> by (by injection H1).
  by split.
Defined.

(** C5 as stated fails in the overflow case: in a ring of capacity 4 with
    the samples 10, 20 and 5, the first [GetDiff] after the third commit
    returns the last good diff 10 and flushes the history, and the next one,
    with no [FlushHead] in between, returns 0. *)
Lemma C5_GetDiff_twice_on_overflow :
  (r ← NewValueRing (F := Empty_set) {| Length := 4; Interval := 1 * time.Second |};
   r ← ValueRing_AddValue 0 10%float r;
   r ← ValueRing_AddValue (1 * time.Second) 20%float r;
   '(_, r) ← GetDiff r;
   r ← ValueRing_AddValue (2 * time.Second) 5%float r;
   '(d1, r) ← GetDiff r;
   '(d2, r) ← GetDiff r;
   mret (d1, d2)) = mret (10%float, 0%float)
  ∧ 10%float ≠ 0%float.
Proof.
  split; [reflexivity|].
  intros Heq. apply (f_equal (λ z, PrimFloat.eqb z 0)) in Heq. discriminate Heq.
Qed.

(** C6 as stated fails: [DiffValue] itself has no guard. With a zero
    interval it divides by zero: the result is infinite, or NaN when the
    two values are equal. *)
Lemma C6_DiffValue_zero_interval :
  StoredValue_DiffValue (F := Empty_set) 1%float (Some (StoredValue 0%float)) 0
    = mret infinity
  ∧ StoredValue_DiffValue (F := Empty_set) 1%float (Some (StoredValue 1%float)) 0
    = mret nan
  ∧ infinity ≠ bitflow.zero ∧ nan ≠ bitflow.zero.
Proof.
  split; [reflexivity|]. split; [reflexivity|].
  split; intros Heq; apply (f_equal (λ z, PrimFloat.eqb z 0)) in Heq; discriminate Heq.
Qed.

Lemma C6_zero_interval_guard_witness :
  GetDiff recovered_ring = mret (bitflow.zero, with_previousDiff bitflow.zero recovered_ring)
  ∧ PrimFloat.eqb (time.Seconds 500000000) 0 = false
  ∧ getDiffInterval half_second_ring (interval half_second_ring)
    = mret (PrimFloat.div (PrimFloat.sub 20 10) (time.Seconds 500000000))
  ∧ GetDiff half_second_ring
    = mret (20%float, with_previousDiff 20%float half_second_ring).
Proof.
  split.
  - refine (proj2 (proj1 (C6_zero_interval_guard recovered_ring
                            (stored (2 * time.Second, 5%float)) (StoredValue 5%float)
                            (stored (2 * time.Second, 5%float))
                            eq_refl eq_refl eq_refl _) eq_refl)).
    by eexists.
  - assert (is_Some (val (F := Empty_set) (stored (0, 10%float)))) as Hsome
      by (by eexists).
    assert (time.Sub 500000000 0 ≠ 0) as Hnz by discriminate.
    destruct (proj2 (C6_zero_interval_guard half_second_ring
                       (stored (500000000, 20%float)) (StoredValue 20%float)
                       (stored (0, 10%float)) eq_refl eq_refl eq_refl Hsome) Hnz)
      as (_ & Hdiv & Hscalar).
    split; [exact Hdiv|].
    split; [exact (Hscalar 20%float 10%float eq_refl eq_refl)|reflexivity].
Defined.

Lemma C9_mismatched_variant_neutral_witness :
  StoredValue_DiffValue 7%float (Some (Foreign tt)) (1 * time.Second)
    = ([CannotDiff 7%float (Some (Foreign tt))], Ok bitflow.zero)
  ∧ StoredValue_AddValue 7%float (Some (Foreign tt))
    = ([CannotAdd 7%float (Some (Foreign tt))], Ok (StoredValue bitflow.zero)).
Proof.
  destruct (C9_mismatched_variant_neutral 7%float (Some (Foreign tt))
              (1 * time.Second) I) as [H1 [H2 _]].
  by split.
Defined.

Lemma falling_ring_committed :
  ValueRing_AddValue (3 * time.Second) 3%float (with_previousDiff bitflow.zero recovered_ring)
  = mret falling_ring.
Proof. reflexivity. Qed.

Lemma C10_previousDiff_overwritten_witness :
  previousDiff recovered_ring = 10%float
  ∧ GetDiff recovered_ring
    = mret (bitflow.zero, with_previousDiff bitflow.zero recovered_ring)
  ∧ getDiffInterval falling_ring (interval falling_ring) = mret (-2)%float
  ∧ ∃ r, GetDiff falling_ring = mret (bitflow.zero, r).
Proof.
  destruct (C10_previousDiff_overwritten recovered_ring [] bitflow.zero eq_refl eq_refl)
    as [H1 [_ [_ H2]]].
  split; [reflexivity|]. split; [exact H1|]. split; [reflexivity|].
  eexists. apply (H2 falling_ring [] (-2)%float []); reflexivity.
Defined.

Lemma one_commit_ring_reachable : reachable factory3 one_commit_ring.
Proof.
  eapply reachable_step; [eapply reachable_step; [apply reachable_new; reflexivity|]|].
  - by apply (step_AddToHead (Some (StoredValue 10%float)) _ []).
  - by apply (step_FlushHead 0 _ []).
Qed.

Lemma C8_head_index_invariant_witness :
  1 ≤ Length factory3
  ∧ (0 ≤ head one_commit_ring < len one_commit_ring)
  ∧ ∃ r', FlushHead (1 * time.Second) one_commit_ring = mret r' ∧ head r' = 2.
Proof.
  destruct (C8_head_index_invariant factory3 one_commit_ring)
    as [[Hb _] [Hflush _]].
  - cbn. lia.
  - apply one_commit_ring_reachable.
  - split; [cbn; lia|]. split; [exact Hb|].
    destruct (Hflush (1 * time.Second)) as [r' [H1 [_ [H2 _]]]].
    exists r'. split; [exact H1|]. rewrite H2. reflexivity.
Defined.

(** * More properties of the ring *)

Section more_properties.
Context {F : Type} `{!ForeignValue F}.

Abbreviation LogbackValue := (LogbackValue F).
Abbreviation Go := (Go F).
Abbreviation ValueRing := (@ValueRing F).
Abbreviation TimedValue := (@TimedValue F).

Lemma getHead_after_FlushHead now (r : ValueRing) :
  0 ≤ head r < len r →
  ∃ r', FlushHead now r = mret r'
        ∧ getHead r' = mret {| Time := now; val := aggregator r |}
        ∧ 0 ≤ head r' < len r' ∧ len r' = len r
        ∧ aggregator r' = None ∧ previousDiff r' = previousDiff r
        ∧ interval r' = interval r.
Proof.
  intros Hb. eexists. rewrite FlushHead_ok by done. split; [reflexivity|].
  assert (Z.to_nat (head r) < length (values r))%nat as Hlt
    by (unfold len in Hb; lia).
  unfold getHead. cbn [values head aggregator previousDiff interval].
  replace (len (mkRing _ _ _ _ _)) with (len r)
    by (unfold len; cbn [values]; by rewrite length_insert).
  destruct (head r >=? len r - 1) eqn:Hge.
  - apply Z.geb_le in Hge. split; [|repeat split; lia].
    change (0 <=? 0) with true. cbv iota. apply index_lookup; [lia|].
    replace (Z.to_nat (len r - 1)) with (Z.to_nat (head r)) by lia.
    by apply list_lookup_insert_eq.
  - apply Zgeb_false in Hge. split; [|repeat split; lia].
    destruct (head r + 1 <=? 0) eqn:Hle; [apply Z.leb_le in Hle; lia|].
    apply index_lookup; [lia|].
    replace (head r + 1 - 1) with (head r) by lia.
    by apply list_lookup_insert_eq.
Qed.

(** X1. Round trip of a commit: [Add] commits the value itself when nothing
    is pending, else what [AddValue] of the pending value makes of the two,
    which for two scalars is their sum; [GetHead] returns the committed
    value next, and nothing is pending then. A panic of [AddValue], as for a
    nil [*StoredValue] added to a pending scalar, is the panic of [Add]. *)
Theorem Add_GetHead_round_trip now (v : option LogbackValue) (r : ValueRing) :
  0 ≤ head r < len r →
  (aggregator r = None →
     ∃ r', Add now v r = mret r' ∧ GetHead r' = mret v ∧ aggregator r' = None)
  ∧ (∀ pending l sum, aggregator r = Some pending →
       AddValue pending v = (l, Ok sum) →
       ∃ r', Add now v r = (l, Ok r')
             ∧ GetHead r' = mret (Some sum) ∧ aggregator r' = None)
  ∧ (∀ a b, aggregator r = Some (StoredValue a) → v = Some (StoredValue b) →
       ∃ r', Add now v r = mret r'
             ∧ GetHead r' = mret (Some (StoredValue (PrimFloat.add a b)))
             ∧ aggregator r' = None)
  ∧ (∀ pending l e, aggregator r = Some pending →
       AddValue pending v = (l, Panic e) → Add now v r = (l, Panic e))
  ∧ (∀ a, aggregator r = Some (StoredValue a) → v = Some (StoredValuePtr None) →
       Add now v r = go_panic NilDereference).
Proof.
  intros Hb.
  assert (Hcommit : ∀ l (r1 : ValueRing), AddToHead v r = (l, Ok r1) →
            ∃ r', Add now v r = (l, Ok r')
                  ∧ GetHead r' = mret (aggregator r1) ∧ aggregator r' = None).
  { intros l r1 Hadd.
    destruct (AddToHead_inv _ _ _ _ Hadd) as [Hh Hv].
    destruct (getHead_after_FlushHead now r1) as (r' & Hfl & Hget & _ & _ & Hagg & _).
    { unfold len. rewrite Hh, Hv. exact Hb. }
    exists r'. split; [|split; [|done]].
    - unfold Add. rewrite (bind_Ok _ _ _ _ Hadd), Hfl. cbn. by rewrite app_nil_r.
    - by rewrite (GetHead_getHead _ _ _ Hget). }
  assert (Hsum : ∀ pending l sum, aggregator r = Some pending →
            AddValue pending v = (l, Ok sum) →
            ∃ r', Add now v r = (l, Ok r')
                  ∧ GetHead r' = mret (Some sum) ∧ aggregator r' = None).
  { intros pending l sum Hagg Hadd.
    apply (Hcommit l {| interval := interval r; values := values r; head := head r;
                        aggregator := Some sum; previousDiff := previousDiff r |}).
    unfold AddToHead. rewrite Hagg, (bind_Ok _ _ _ _ Hadd). cbn. by rewrite app_nil_r. }
  assert (Hpanic : ∀ pending l e, aggregator r = Some pending →
            AddValue pending v = (l, Panic e) → Add now v r = (l, Panic e)).
  { intros pending l e Hagg Hadd. unfold Add, AddToHead.
    by rewrite Hagg, !(bind_Panic _ _ _ _ Hadd). }
  split; [|split; [|split; [|split]]].
  - intros Hnone.
    apply (Hcommit [] {| interval := interval r; values := values r; head := head r;
                         aggregator := v; previousDiff := previousDiff r |}).
    unfold AddToHead. by rewrite Hnone.
  - exact Hsum.
  - intros a b Hagg ->. by apply (Hsum (StoredValue a) []).
  - exact Hpanic.
  - intros a Hagg ->. by apply (Hpanic (StoredValue a) []).
Qed.

Lemma AddAllToHead_pending readings a (r : ValueRing) :
  aggregator r = Some (StoredValue a) →
  AddAllToHead readings r
  = mret (with_aggregator (Some (StoredValue (float_sum a readings))) r).
Proof.
  revert a r. induction readings as [|v rest IH]; intros a r Hagg.
  - cbn. destruct r; cbn in *. by subst.
  - cbn [AddAllToHead]. unfold AddValueToHead, AddToHead. rewrite Hagg.
    cbn [AddValue StoredValue_AddValue]. rewrite !bind_ret_l.
    by rewrite (IH (PrimFloat.add a v)).
Qed.

(** X2. Readings added with [AddValueToHead] are summed from left to right and
    committed by the next [FlushHead] as one sample; nothing is committed
    before. *)
Theorem AddValueToHead_accumulates now v readings (r : ValueRing) :
  0 ≤ head r < len r → aggregator r = None →
  ∃ r1 r2,
    AddAllToHead (v :: readings) r = mret r1
    ∧ values r1 = values r ∧ head r1 = head r
    ∧ FlushHead now r1 = mret r2
    ∧ getHead r2 = mret {| Time := now;
                           val := Some (StoredValue (float_sum v readings)) |}
    ∧ aggregator r2 = None.
Proof.
  intros Hb Hagg.
  set (r0 := with_aggregator (Some (StoredValue v)) r).
  set (r1 := with_aggregator (Some (StoredValue (float_sum v readings))) r0).
  destruct (getHead_after_FlushHead now r1 Hb) as (r2 & Hfl & Hget & _ & _ & Hnone & _).
  exists r1, r2. split; [|done].
  cbn [AddAllToHead]. unfold AddValueToHead, AddToHead. rewrite Hagg, bind_ret_l.
  by apply (AddAllToHead_pending readings v r0).
Qed.

Lemma IncrementAll_total deltas (r : ValueRing) hd s :
  0 ≤ head r < len r → aggregator r = None →
  getHead r = mret hd → val hd = Some (StoredValue s) →
  ∃ r' hd', IncrementAll deltas r = mret r'
    ∧ 0 ≤ head r' < len r' ∧ aggregator r' = None
    ∧ getHead r' = mret hd'
    ∧ val hd' = Some (StoredValue (float_sum s deltas.*2)).
Proof.
  revert r hd s. induction deltas as [|[now v] rest IH]; intros r hd s Hb Hagg Hhd Hval.
  - exists r, hd. by cbn.
  - cbn [IncrementAll]. unfold IncrementValue, Increment.
    rewrite Hhd, bind_ret_l, Hval. cbn [AddValue StoredValue_AddValue].
    rewrite bind_ret_l. unfold Add, AddToHead. rewrite Hagg, bind_ret_l.
    destruct (getHead_after_FlushHead now
                (with_aggregator (Some (StoredValue (PrimFloat.add s v))) r) Hb)
      as (r1 & Hfl & Hget & Hb1 & _ & Hnone & _).
    fold (with_aggregator (Some (StoredValue (PrimFloat.add s v))) r).
    rewrite Hfl, bind_ret_l.
    destruct (IH r1 _ (PrimFloat.add s v) Hb1 Hnone Hget eq_refl) as (r' & hd' & H).
    by exists r', hd'.
Qed.

(** X3. [IncrementValue] keeps a running total: after the deltas [v], [d1],
    ..., [dn] on a ring whose head slot is empty, the head holds
    [v + d1 + ... + dn], summed from left to right. *)
Theorem Increment_running_total now v deltas (r : ValueRing) hd :
  0 ≤ head r < len r → aggregator r = None →
  getHead r = mret hd → val hd = None →
  ∃ r', IncrementAll ((now, v) :: deltas) r = mret r'
    ∧ GetHead r' = mret (Some (StoredValue (float_sum v deltas.*2))).
Proof.
  intros Hb Hagg Hhd Hnil. cbn [IncrementAll]. unfold IncrementValue, Increment.
  rewrite Hhd, bind_ret_l, Hnil. unfold Add, AddToHead. rewrite Hagg, bind_ret_l.
  destruct (getHead_after_FlushHead now (with_aggregator (Some (StoredValue v)) r) Hb)
    as (r1 & Hfl & Hget & Hb1 & _ & Hnone & _).
  fold (with_aggregator (Some (StoredValue v)) r). rewrite Hfl, bind_ret_l.
  destruct (IncrementAll_total deltas r1 _ v Hb1 Hnone Hget eq_refl)
    as (r' & hd' & Hall & _ & _ & Hget' & Hval').
  exists r'. split; [done|]. by rewrite (GetHead_getHead _ _ _ Hget'), Hval'.
Qed.

(** X4. A [FlushHead] with nothing pending commits an empty slot: [GetHead]
    then returns nil and [GetDiff] returns 0, whatever the ring held. *)
Theorem FlushHead_nothing_pending now (r : ValueRing) :
  0 ≤ head r < len r → aggregator r = None →
  ∃ r', FlushHead now r = mret r'
    ∧ GetHead r' = mret None
    ∧ GetDiff r' = mret (bitflow.zero, with_previousDiff bitflow.zero r').
Proof.
  intros Hb Hagg.
  destruct (getHead_after_FlushHead now r Hb) as (r' & Hfl & Hget & _).
  rewrite Hagg in Hget. exists r'. split; [done|]. split.
  - by rewrite (GetHead_getHead _ _ _ Hget).
  - apply GetDiff_nonneg; [|done]. by apply (getDiffInterval_empty _ _ _ Hget).
Qed.

Lemma step_previousDiff_not_negative (r r' : ValueRing) :
  step r r' → PrimFloat.ltb (previousDiff r) 0 = false →
  PrimFloat.ltb (previousDiff r') 0 = false.
Proof.
  intros Hstep Hinv. destruct Hstep as [v r l r' H|now r l r' H|r l d r' H].
  - unfold AddToHead in H. destruct (aggregator r).
    + apply bind_inv_Ok in H as (? & ? & ? & _ & Hret & _). by injection Hret as _ <-.
    + by injection H as _ <-.
  - by apply FlushHead_inv in H as (_ & _ & ->).
  - apply GetDiff_inv in H as (l0 & d0 & _ & H). destruct (PrimFloat.ltb d0 0) eqn:Hlt.
    + destruct H as (_ & l1 & (_ & _ & _ & _ & Hp)%flush_inv & _). by rewrite Hp.
    + by destruct H as (_ & -> & _).
Qed.

Lemma reachable_previousDiff_not_negative factory (r : ValueRing) :
  reachable factory r → PrimFloat.ltb (previousDiff r) 0 = false.
Proof.
  induction 1 as [r Hnew|r r' _ IH Hstep].
  - unfold NewValueRing in Hnew. destruct (Length factory <? 0); [done|].
    by injection Hnew as <-.
  - by eapply step_previousDiff_not_negative.
Qed.

(** X5. [GetDiff] never returns a value below 0: a negative diff is replaced
    by the last diff that was not negative, or by the initial 0. *)
Theorem GetDiff_never_negative factory (r r' : ValueRing) l d :
  reachable factory r → GetDiff r = (l, Ok (d, r')) →
  PrimFloat.ltb d 0 = false.
Proof.
  intros Hr H. apply reachable_previousDiff_not_negative in Hr.
  apply GetDiff_inv in H as (l0 & d0 & _ & H). destruct (PrimFloat.ltb d0 0) eqn:Hlt.
  - by destruct H as (-> & _).
  - by destruct H as (-> & _).
Qed.

Lemma scan_live_run before (slots : list TimedValue) res :
  (scan before slots res).2 =
    match List.find (λ s, time.Before (Time s) before) (live_run slots) with
    | Some s => s
    | None => default res (last (live_run slots))
    end.
Proof.
  revert res. induction slots as [|s rest IH]; intros res; [done|].
  cbn [scan live_run]. destruct (val s); [|done].
  cbn [List.find]. destruct (time.Before (Time s) before); [done|].
  rewrite IH, (last_cons s). by destruct (List.find _ _), (last (live_run rest)).
Qed.

(** X6. [get] returns the newest sample earlier than [before] among those it
    can reach, and the oldest of them when none is earlier. *)
Theorem get_first_earlier (r : ValueRing) before :
  0 ≤ head r ≤ len r →
  get r before = mret (first_earlier before (live_history r)).
Proof.
  intros Hb. rewrite get_history by done. by rewrite scan_live_run.
Qed.

Lemma live_run_sublist (slots : list TimedValue) s :
  s ∈ live_run slots → s ∈ slots ∧ is_Some (val s).
Proof.
  induction slots as [|x rest IH]; cbn [live_run]; [by intros ?%elem_of_nil|].
  destruct (val x) eqn:Hx; [|by intros ?%elem_of_nil].
  intros [->|Hin]%elem_of_cons.
  - split; [left|by eexists].
  - destruct (IH Hin). split; [by right|done].
Qed.

Lemma first_earlier_elem before (samples : list TimedValue) :
  samples ≠ [] → first_earlier before samples ∈ samples.
Proof.
  intros Hne. unfold first_earlier.
  destruct (List.find _ samples) as [s|] eqn:Hfind.
  - apply find_some in Hfind as [Hin _]. by apply list_elem_of_In.
  - destruct (last samples) as [s|] eqn:Hlast.
    + cbn. by eapply last_Some_elem_of.
    + by apply last_None in Hlast.
Qed.

Lemma history_newest (r : ValueRing) hd :
  0 ≤ head r < len r → getHead r = mret hd →
  ∃ older, history r = hd :: older.
Proof.
  intros Hb Hhd. unfold getHead in Hhd. unfold history.
  apply index_inv in Hhd as (_ & Hi & Hlk).
  destruct (head r <=? 0) eqn:Hle.
  - apply Z.leb_le in Hle. replace (head r) with 0 by lia. cbn [Z.to_nat take drop].
    unfold len in Hlk.
    replace (Z.to_nat (Z.of_nat (length (values r)) - 1)) with (pred (length (values r))) in Hlk by lia.
    rewrite <- last_lookup in Hlk.
    apply last_Some in Hlk as [l' Hl']. change (Z.to_nat 0) with 0%nat.
    rewrite take_0, drop_0, Hl', reverse_snoc. by eexists.
  - apply Z.leb_gt in Hle.
    assert (last (take (Z.to_nat (head r)) (values r)) = Some hd) as Hlast.
    { rewrite last_lookup, length_take_le by (unfold len in Hb; lia).
      rewrite lookup_take_lt by lia. rewrite <- Hlk. f_equal. lia. }
    apply last_Some in Hlast as [l' Hl']. rewrite Hl', reverse_snoc. by eexists.
Qed.

(** X7. When the head slot holds a sample, [get] finds a sample of the ring:
    the test [previous.val == nil] of [getDiffInterval] never succeeds. *)
Theorem get_finds_a_sample (r : ValueRing) hd before :
  0 ≤ head r < len r → getHead r = mret hd → is_Some (val hd) →
  ∃ previous, get r before = mret previous
    ∧ is_Some (val previous) ∧ previous ∈ values r.
Proof.
  intros Hb Hhd [v Hv]. destruct (history_newest r hd Hb Hhd) as [older Hhist].
  exists (first_earlier before (live_history r)).
  split; [apply get_first_earlier; lia|].
  assert (live_history r ≠ []) as Hne.
  { unfold live_history. rewrite Hhist. cbn. by rewrite Hv. }
  apply (first_earlier_elem before) in Hne.
  apply live_run_sublist in Hne as [Hin Hsome]. split; [done|].
  unfold history in Hin. apply elem_of_app in Hin as [Hin|Hin];
    rewrite elem_of_reverse in Hin.
  - by eapply subseteq_take.
  - by eapply subseteq_drop.
Qed.

Lemma kept_or_cleared_refl (vs : list TimedValue) : Forall2 kept_or_cleared vs vs.
Proof. apply Forall2_same_length_lookup_2; [done|]. intros i x y Hx Hy. split; [congruence|left; congruence]. Qed.

Lemma kept_or_cleared_trans (vs1 vs2 vs3 : list TimedValue) :
  Forall2 kept_or_cleared vs1 vs2 → Forall2 kept_or_cleared vs2 vs3 →
  Forall2 kept_or_cleared vs1 vs3.
Proof.
  intros H12 H23. eapply Forall2_trans; [|done..].
  intros a b c [Ht1 Hv1] [Ht2 Hv2]. split; [congruence|].
  destruct Hv2 as [Hv2|Hv2]; [|by right].
  destruct Hv1 as [Hv1|Hv1]; [left|right]; congruence.
Qed.

Lemma flushSlot_inv i (vs : list TimedValue) l c vs' :
  flushSlot i vs = (l, Ok (c, vs')) →
  l = [] ∧ 0 ≤ i < Z.of_nat (length vs) ∧ Forall2 kept_or_cleared vs vs'
  ∧ ∃ slot, vs' !! Z.to_nat i = Some slot ∧ val slot = None.
Proof.
  unfold flushSlot. intros (l1 & slot & l2 & Hix & Hk & ->)%bind_inv_Ok.
  apply index_inv in Hix as (-> & Hi & Hslot).
  destruct (val slot) eqn:Hv.
  - apply bind_inv_Ok in Hk as (l3 & vs1 & l4 & Hst & Hret & ->).
    apply store_inv in Hst as (-> & _ & ->). injection Hret as <- _ <-.
    split; [done|]. split; [done|]. split.
    + rewrite <- (list_insert_id vs (Z.to_nat i) slot) at 1 by done.
      apply Forall2_insert; [apply kept_or_cleared_refl|]. split; [done|by right].
    + eexists. split; [apply list_lookup_insert_eq; lia|done].
  - injection Hk as <- _ <-. split; [done|]. split; [done|].
    split; [apply kept_or_cleared_refl|]. by exists slot.
Qed.

Lemma for_down_flushSlot_inv n lo (vs : list TimedValue) l c vs' :
  for_down n lo flushSlot vs = (l, Ok (c, vs')) →
  l = [] ∧ Forall2 kept_or_cleared vs vs'.
Proof.
  revert vs l. induction n as [|n IH]; intros vs l; simpl.
  - intros [= <- _ <-]. split; [done|apply kept_or_cleared_refl].
  - intros (l1 & [c1 vs1] & l2 & Hslot & Hk & ->)%bind_inv_Ok.
    apply flushSlot_inv in Hslot as (-> & _ & H1 & _). destruct c1.
    + apply IH in Hk as [-> H2]. split; [done|]. by eapply kept_or_cleared_trans.
    + by injection Hk as <- _ <-.
Qed.

(** X8. [flush] only clears: it logs nothing, keeps [head], the window, the
    pending value and the last good diff, and leaves every slot with its
    timestamp and with the value it had or none. *)
Theorem flush_only_clears start (r r' : ValueRing) l :
  flush start r = (l, Ok r') →
  l = [] ∧ head r' = head r ∧ interval r' = interval r
  ∧ aggregator r' = aggregator r ∧ previousDiff r' = previousDiff r
  ∧ Forall2 kept_or_cleared (values r) (values r').
Proof.
  unfold flush. intros (l1 & [c1 vs1] & l2 & H1 & Hk & ->)%bind_inv_Ok.
  apply for_down_flushSlot_inv in H1 as [-> H1]. destruct c1.
  - apply bind_inv_Ok in Hk as (l3 & [c2 vs2] & l4 & H2 & Hret & ->).
    apply for_down_flushSlot_inv in H2 as [-> H2]. injection Hret as <- <-.
    repeat split; try done. by eapply kept_or_cleared_trans.
  - by injection Hk as <- <-.
Qed.

Lemma for_down_flushSlot_first n lo (vs : list TimedValue) l c vs' :
  for_down (S n) lo flushSlot vs = (l, Ok (c, vs')) → 0 ≤ lo →
  ∃ slot, vs' !! Z.to_nat (lo + Z.of_nat n) = Some slot ∧ val slot = None.
Proof.
  cbn [for_down]. intros (l1 & [c1 vs1] & l2 & Hslot & Hk & _)%bind_inv_Ok Hlo.
  apply flushSlot_inv in Hslot as (_ & _ & _ & slot & Hlk & Hnil).
  exists slot. split; [|done]. destruct c1.
  - rewrite <- Hlk. eapply for_down_flushSlot_outside; [done..|]. lia.
  - by injection Hk as _ _ <-.
Qed.

Lemma Sub_diag (t : time.Time) : time.Sub t t = 0.
Proof. unfold time.Sub. by rewrite Z.sub_diag. Qed.

(** X9. The fallback lasts for one query. When [GetDiff] has computed a
    negative diff while [head] is 2 or more, it returns the last good diff,
    and the next [GetDiff], with no commit in between, returns 0 and makes
    0 the last good diff. *)
Theorem GetDiff_after_fallback (r r' : ValueRing) l0 d0 l d :
  2 ≤ head r →
  getDiffInterval r (interval r) = (l0, Ok d0) → PrimFloat.ltb d0 0 = true →
  GetDiff r = (l, Ok (d, r')) →
  d = previousDiff r
  ∧ GetDiff r' = mret (bitflow.zero, with_previousDiff bitflow.zero r').
Proof.
  intros Hhead Hd0 Hneg Hdiff.
  apply GetDiff_inv in Hdiff as (l0' & d0' & Hd0' & Hdiff).
  rewrite Hd0 in Hd0'. injection Hd0' as <- <-. rewrite Hneg in Hdiff.
  destruct Hdiff as (-> & l1 & Hflush & _). split; [done|].
  pose proof (flush_keeps_newest _ _ _ Hhead Hflush) as Hnewest.
  destruct (flush_inv _ _ _ _ Hflush) as (Hh & Hlen & Hint & _).
  (* the head slot of [r] *)
  unfold getDiffInterval in Hd0.
  apply bind_inv_Ok in Hd0 as (l2 & hd & l3 & Hhd & _).
  pose proof (getHead_inv _ _ _ Hhd) as ->.
  unfold getHead in Hhd. destruct (head r <=? 0) eqn:Hle; [apply Z.leb_le in Hle; lia|].
  apply index_inv in Hhd as (_ & Hi & Hlk).
  assert (getHead r' = mret hd) as Hhd'.
  { apply getHead_lookup; [rewrite Hh; lia|]. by rewrite Hh, Hnewest. }
  apply GetDiff_nonneg; [|done].
  destruct (val hd) as [headVal|] eqn:Hval;
    [|by rewrite (getDiffInterval_empty _ _ _ Hhd' Hval)].
  (* the slot before the head of [r'] is empty *)
  assert (∃ slot, values r' !! Z.to_nat (head r - 2) = Some slot ∧ val slot = None)
    as (gap & Hgap & Hnil).
  { unfold flush in Hflush.
    destruct (head r - 2 <? 0) eqn:Hlt; [apply Z.ltb_lt in Hlt; lia|].
    replace (Z.to_nat (head r - 2 + 1)) with (S (Z.to_nat (head r - 2))) in Hflush by lia.
    apply bind_inv_Ok in Hflush as (l4 & [c1 vs1] & l5 & H1 & Hk & _).
    apply for_down_flushSlot_first in H1 as (slot & Hslot & Hnil); [|done].
    rewrite Z.add_0_l, Z2Nat.id in Hslot by lia.
    exists slot. split; [|done]. destruct c1.
    - apply bind_inv_Ok in Hk as (l6 & [c2 vs2] & l7 & H2 & Hret & _).
      injection Hret as _ <-. cbn [values]. rewrite <- Hslot.
      eapply for_down_flushSlot_outside; [done|lia|lia].
    - by injection Hk as _ <-. }
  assert (get r' (time.Add (Time hd) (time.neg (interval r'))) = mret hd) as Hget.
  { rewrite get_history by (unfold len in *; lia). unfold history. rewrite Hh.
    replace (Z.to_nat (head r)) with (S (S (Z.to_nat (head r - 2)))) by lia.
    rewrite (take_S_r _ _ hd)
      by (replace (S (Z.to_nat (head r - 2))) with (Z.to_nat (head r - 1)) by lia;
          by rewrite Hnewest).
    rewrite (take_S_r _ _ gap) by done.
    rewrite !reverse_app. cbn [reverse rev_append app scan].
    change (reverse [hd]) with [hd]. change (reverse [gap]) with [gap].
    cbn [app scan]. rewrite Hval, Hnil. by destruct (time.Before _ _). }
  rewrite (getDiffInterval_found _ _ _ _ _ Hhd' Hval Hget) by (by rewrite Hval).
  by rewrite Sub_diag.
Qed.

(** X10. A ring without slots can be made, but not used: every method that
    reads or writes a slot panics. *)
Theorem zero_capacity_ring_panics (factory : ValueRingFactory) :
  Length factory = 0 →
  ∃ r : ValueRing, NewValueRing factory = mret r
    ∧ (∀ now, FlushHead now r = go_panic (IndexOutOfRange 0 0))
    ∧ (∀ now v, ValueRing_AddValue now v r = go_panic (IndexOutOfRange 0 0))
    ∧ (∀ now v, IncrementValue now v r = go_panic (IndexOutOfRange (-1) 0))
    ∧ GetHead r = go_panic (IndexOutOfRange (-1) 0)
    ∧ GetDiff r = go_panic (IndexOutOfRange (-1) 0).
Proof.
  intros Hlen. unfold NewValueRing. rewrite Hlen. eexists. split; [reflexivity|].
  repeat split.
Qed.

(** A negative length makes [NewValueRing] panic. *)
Lemma NewValueRing_negative (factory : ValueRingFactory) :
  Length factory < 0 → NewValueRing (F := F) factory = go_panic MakeSliceLenOutOfRange.
Proof. intros Hneg. unfold NewValueRing. by apply Z.ltb_lt in Hneg as ->. Qed.

(** X11. A ring with one slot never yields a rate: its head is the only sample
    [get] can find, so [GetDiff] returns 0 in every state. *)
Theorem single_slot_ring_GetDiff factory (r : ValueRing) :
  Length factory = 1 → reachable factory r →
  GetDiff r = mret (bitflow.zero, with_previousDiff bitflow.zero r).
Proof.
  intros Hone Hr. destruct (reachable_head_bounds factory r) as [Hb Hlen]; [lia|done|].
  rewrite Hone in Hlen. assert (head r = 0) as Hhead by lia.
  destruct (values r) as [|s [|]] eqn:Hvalues;
    unfold len in Hlen; rewrite Hvalues in Hlen; cbn in Hlen; try lia.
  assert (getHead r = mret s) as Hhd.
  { unfold getHead, len. by rewrite Hhead, Hvalues. }
  apply GetDiff_nonneg; [|done].
  destruct (val s) as [v|] eqn:Hval;
    [|by rewrite (getDiffInterval_empty _ _ _ Hhd Hval)].
  assert (get r (time.Add (Time s) (time.neg (interval r))) = mret s) as Hget.
  { rewrite get_history by (unfold len; rewrite Hhead, Hvalues; cbn; lia).
    unfold history. rewrite Hhead, Hvalues. change (Z.to_nat 0) with 0%nat.
    rewrite take_0, drop_0. change (reverse [] ++ reverse [s]) with [s].
    cbn [scan]. rewrite Hval. by destruct (time.Before _ _). }
  rewrite (getDiffInterval_found _ _ _ _ _ Hhd Hval Hget) by (by rewrite Hval).
  by rewrite Sub_diag.
Qed.

Lemma bind_ret_r {A} (m : Go A) : (m ≫= mret) = m.
Proof. destruct m as [l [a|p]]; [|done]. cbn. by rewrite app_nil_r. Qed.

Lemma bind_ext {A B} (m : Go A) (f g : A → Go B) :
  (∀ a, f a = g a) → (m ≫= f) = (m ≫= g).
Proof.
  intros Hfg. destruct m as [l [a|p]]; [|done].
  unfold mbind, Go_bind, go_bind. by rewrite Hfg.
Qed.

Lemma AddAll_snoc samples now v (r : ValueRing) :
  AddAll (samples ++ [(now, v)]) r = (AddAll samples r ≫= ValueRing_AddValue now v).
Proof.
  revert r. induction samples as [|[t x] rest IH]; intros r; cbn [AddAll app].
  - by rewrite bind_ret_l, bind_ret_r.
  - rewrite bind_assoc. apply bind_ext. intros r'. apply IH.
Qed.

Lemma mod_succ_wrap (n c : Z) :
  0 < c → 0 ≤ n →
  (if n mod c >=? c - 1 then 0 else n mod c + 1) = (n + 1) mod c.
Proof.
  intros Hc Hn. pose proof (Z.mod_pos_bound n c Hc) as Hm.
  pose proof (Z.div_mod n c ltac:(lia)) as Hdiv.
  destruct (n mod c >=? c - 1) eqn:Hge.
  - apply Z.geb_le in Hge. apply (Zmod_unique _ _ (n / c + 1)); lia.
  - apply Zgeb_false in Hge. apply (Zmod_unique _ _ (n / c)); lia.
Qed.

Lemma mod_distinct (j n c : Z) :
  0 < n - j < c → j mod c ≠ n mod c.
Proof.
  intros Hd Heq. assert ((n - j) mod c = 0) as Hz.
  { rewrite Zminus_mod, Heq, Z.sub_diag. apply Z.mod_0_l. lia. }
  rewrite Z.mod_small in Hz; lia.
Qed.

Lemma retains_fresh (capacity : Z) window :
  1 ≤ capacity →
  ∃ r : ValueRing,
    NewValueRing {| Length := capacity; Interval := window |} = mret r
    ∧ retains capacity [] r ∧ interval r = window.
Proof.
  intros Hcap. unfold NewValueRing. cbn [Length Interval].
  destruct (capacity <? 0) eqn:Hneg; [apply Z.ltb_lt in Hneg; lia|].
  eexists. split; [reflexivity|]. split; [|done].
  unfold retains, len. cbn [values head aggregator length].
  rewrite length_replicate. change (Z.of_nat 0) with 0. rewrite Zmod_0_l.
  split; [lia|]. split; [done|]. split; [done|]. split; [|split].
  - intros j sample Hj. by rewrite lookup_nil in Hj.
  - intros i _ Hi. apply lookup_replicate_2. lia.
  - intros sample Hlast. done.
Qed.

Lemma retains_AddValue (capacity : Z) samples now v (r : ValueRing) :
  1 ≤ capacity → retains capacity samples r →
  ∃ r', ValueRing_AddValue now v r = mret r'
    ∧ retains capacity (samples ++ [(now, v)]) r'
    ∧ interval r' = interval r.
Proof.
  intros Hcap (Hlen & Hhead & Hagg & Hslots & Hempty & _).
  pose proof (Z.mod_pos_bound (Z.of_nat (length samples)) capacity ltac:(lia)) as Hm.
  assert (0 ≤ head r < len r) as Hb by lia.
  set (r1 := with_aggregator (Some (StoredValue v)) r).
  destruct (getHead_after_FlushHead now r1 Hb) as (r' & Hfl & Hget & _ & _ & Hnone & _ & Hint).
  exists r'. split.
  { unfold ValueRing_AddValue, Add, AddToHead. by rewrite Hagg, bind_ret_l. }
  split; [|done].
  pose proof (FlushHead_ok now r1 Hb) as Hok. rewrite Hfl in Hok.
  injection Hok as Hr'. change (len r1) with (len r) in Hr'.
  cbn [interval values head aggregator previousDiff r1 with_aggregator] in Hr'.
  assert (Z.to_nat (head r) < length (values r))%nat as Hlt by (unfold len in Hb; lia).
  unfold retains. rewrite length_app. cbn [length].
  replace (Z.of_nat (length samples + 1)) with (Z.of_nat (length samples) + 1) by lia.
  split; [|split; [|split; [|split; [|split]]]].
  - rewrite Hr'. unfold len. cbn [values]. rewrite length_insert. exact Hlen.
  - rewrite Hr'. cbn [head]. rewrite Hhead, Hlen. apply mod_succ_wrap; lia.
  - done.
  - intros j sample Hj Hrecent. rewrite Hr'. cbn [values].
    destruct (decide (j = length samples)) as [->|Hne].
    + rewrite lookup_app_r, Nat.sub_diag in Hj by done. injection Hj as <-.
      rewrite <- Hhead. by apply list_lookup_insert_eq.
    + assert (j < length samples)%nat as Hjlt.
      { apply lookup_lt_Some in Hj. rewrite length_app in Hj. cbn in Hj. lia. }
      rewrite lookup_app_l in Hj by done.
      rewrite list_lookup_insert_ne.
      * apply Hslots; [done|lia].
      * rewrite Hhead. intros Heq. apply Z2Nat.inj in Heq; [|lia|].
        -- symmetry in Heq. revert Heq. apply mod_distinct. lia.
        -- apply Z.mod_pos_bound. lia.
  - intros i Hi Hic. rewrite Hr'. cbn [values].
    rewrite list_lookup_insert_ne.
    + apply Hempty; [lia|done].
    + rewrite Hhead, Z.mod_small by lia. lia.
  - intros sample Hlast. rewrite last_snoc in Hlast. by injection Hlast as <-.
Qed.

(** X12. The ring keeps the latest samples: after any number of commits into
    a fresh ring of capacity 1 or more, each of the last [capacity] samples
    is in the slot given by its number modulo the capacity, the slots
    never written are empty, [head] is the number of commits modulo the
    capacity, and [GetHead] returns the last value committed. *)
Theorem ring_retains_latest (capacity : Z) window samples :
  1 ≤ capacity →
  ∃ r : ValueRing,
    (r0 ← NewValueRing {| Length := capacity; Interval := window |};
     AddAll samples r0) = mret r
    ∧ retains capacity samples r
    ∧ (∀ sample, last samples = Some sample →
         GetHead r = mret (Some (StoredValue sample.2))).
Proof.
  intros Hcap.
  assert (∃ r : ValueRing,
            (r0 ← NewValueRing {| Length := capacity; Interval := window |};
             AddAll samples r0) = mret r
            ∧ retains capacity samples r) as (r & Hrun & Hret).
  { induction samples as [|[now v] samples IH] using rev_ind.
    - destruct (retains_fresh capacity window Hcap) as (r & Hnew & Hret & _).
      exists r. split; [|done]. cbn [AddAll]. by rewrite Hnew, bind_ret_l.
    - destruct IH as (r & Hrun & Hret).
      destruct (retains_AddValue capacity samples now v r Hcap Hret) as (r' & Hadd & Hret' & _).
      exists r'. split; [|done].
      transitivity ((r0 ← NewValueRing {| Length := capacity; Interval := window |};
                     AddAll samples r0) ≫= ValueRing_AddValue now v).
      + rewrite bind_assoc. apply bind_ext. intros r0. apply AddAll_snoc.
      + by rewrite Hrun, bind_ret_l. }
  exists r. split; [done|]. split; [done|].
  intros sample Hlast. destruct Hret as (_ & _ & _ & _ & _ & Hhd).
  by rewrite (GetHead_getHead _ _ _ (Hhd _ Hlast)).
Qed.

End more_properties.

(** * Properties of the command, the mock collector, the REST API and the driver *)

Section strings_lemmas.

Lemma HasPrefix_single c s :
  strings.HasPrefix s [c] = match s with x :: _ => Ascii.eqb x c | [] => false end.
Proof. destruct s as [|x [|y s]]; [done|..]; cbn; by rewrite andb_true_r. Qed.

Lemma Index_single_absent c s : c ∉ s → strings.Index s [c] = -1.
Proof.
  induction s as [|x s IH]; intros Hnot; [done|].
  cbn [strings.Index]. rewrite HasPrefix_single.
  apply not_elem_of_cons in Hnot as [Hne Hnot].
  destruct (Ascii.eqb x c) eqn:Heq; [apply Ascii.eqb_eq in Heq; congruence|].
  by rewrite IH.
Qed.

Lemma Index_single_first c key rest :
  c ∉ key → strings.Index (key ++ c :: rest) [c] = Z.of_nat (length key).
Proof.
  induction key as [|x key IH]; intros Hnot.
  - cbn [app strings.Index]. rewrite HasPrefix_single. by rewrite Ascii.eqb_refl.
  - apply not_elem_of_cons in Hnot as [Hne Hnot].
    cbn [app strings.Index]. rewrite HasPrefix_single.
    destruct (Ascii.eqb x c) eqn:Heq; [apply Ascii.eqb_eq in Heq; congruence|].
    rewrite IH by done. destruct (Z.of_nat (length key) <? 0) eqn:Hlt;
      [apply Z.ltb_lt in Hlt; lia|]. cbn [length]. lia.
Qed.

Lemma Index_single_inv c s :
  (strings.Index s [c] = -1 ∧ c ∉ s)
  ∨ (∃ key rest, s = key ++ c :: rest ∧ (c ∉ key)
       ∧ strings.Index s [c] = Z.of_nat (length key)).
Proof.
  induction s as [|x s IH].
  - left. split; [done|]. apply not_elem_of_nil.
  - destruct (Ascii.eqb x c) eqn:Heq;
      [apply Ascii.eqb_eq in Heq as ->|apply Ascii.eqb_neq in Heq as Hne].
    + right. exists [], s. split; [done|]. split; [apply not_elem_of_nil|].
      by apply (Index_single_first c []), not_elem_of_nil.
    + destruct IH as [[Hidx Hnot]|(key & rest & -> & Hnot & Hidx)].
      * left. assert (c ∉ x :: s) as Hnot' by (apply not_elem_of_cons; by split).
        split; [by apply Index_single_absent|done].
      * right. exists (x :: key), rest.
        assert (c ∉ x :: key) as Hnot' by (apply not_elem_of_cons; by split).
        split; [done|]. split; [done|]. by apply (Index_single_first c (x :: key)).
Qed.

(** X13. Round trip of [splitKeyValue]: a non-empty key without ["="], then
    ["="], then any value (which may itself contain ["="]) is split into
    that key and that value, and no error is reported. *)
Theorem splitKeyValue_round_trip (key value : list ascii) :
  key ≠ [] → "="%char ∉ key →
  main.splitKeyValue (key ++ main.equals ++ value) = (None, (key, value)).
Proof.
  intros Hne Hnot. unfold main.splitKeyValue, main.equals. cbn [app].
  rewrite Index_single_first by done.
  destruct (Z.of_nat (length key) >? 0) eqn:Hpos.
  - rewrite Nat2Z.id. replace (Z.to_nat (Z.of_nat (length key) + 1)) with (S (length key)) by lia.
    rewrite take_app_length. do 2 f_equal.
    change (key ++ "="%char :: value) with (key ++ ["="%char] ++ value).
    by rewrite app_assoc, drop_app_length'
      by (rewrite length_app; cbn; lia).
  - rewrite Z.gtb_ltb in Hpos. apply Z.ltb_ge in Hpos. destruct key; [done|cbn in Hpos; lia].
Qed.

(** X14. What [splitKeyValue] returns without an error is a split of its
    argument at the first ["="]: the key is not empty and holds no ["="]. *)
Theorem splitKeyValue_splits (pair key value : list ascii) :
  main.splitKeyValue pair = (None, (key, value)) →
  pair = key ++ main.equals ++ value ∧ key ≠ [] ∧ "="%char ∉ key.
Proof.
  unfold main.splitKeyValue, main.equals.
  destruct (Index_single_inv "="%char pair) as [[-> _]|(k & rest & -> & Hnot & ->)];
    [done|].
  destruct (Z.of_nat (length k) >? 0) eqn:Hpos; [|done].
  rewrite Nat2Z.id. replace (Z.to_nat (Z.of_nat (length k) + 1)) with (S (length k)) by lia.
  rewrite take_app_length.
  change (k ++ "="%char :: rest) with (k ++ ["="%char] ++ rest) at 1.
  rewrite app_assoc, drop_app_length' by (rewrite length_app; cbn; lia).
  intros [= <- <-]. split; [done|]. split; [|done].
  intros ->. done.
Qed.

(** X15. [splitKeyValue] reports the format error exactly when its argument
    holds no ["="] or starts with one; it then returns two empty strings. *)
Theorem splitKeyValue_error (pair : list ascii) :
  ("="%char ∉ pair ∨ ∃ rest, pair = "="%char :: rest)
  ↔ main.splitKeyValue pair = (Some main.formatError, ([], [])).
Proof.
  unfold main.splitKeyValue, main.equals.
  destruct (Index_single_inv "="%char pair) as [[-> Hnot]|(k & rest & -> & Hnot & ->)].
  - cbn. split; [done|]. intros _. by left.
  - destruct (Z.of_nat (length k) >? 0) eqn:Hpos.
    + split; [|done]. intros [Habs|[rest' Heq]].
      * exfalso. apply Habs. apply elem_of_app. right. left.
      * destruct k as [|x k]; [done|]. injection Heq as -> _.
        exfalso. apply Hnot. left.
    + split; [done|]. intros _. right.
      rewrite Z.gtb_ltb in Hpos. apply Z.ltb_ge in Hpos. destruct k; [by eexists|cbn in Hpos; lia].
Qed.

End strings_lemmas.

Section config.
Context {F : Type} `{!ForeignValue F}.

Lemma wrap64_small (z : Z) : - 2 ^ 63 ≤ z < 2 ^ 63 → time.wrap64 z = z.
Proof. intros Hz. unfold time.wrap64. rewrite Z.mod_small; lia. Qed.

(** X16. The rings get three slots for each collection interval that fits into
    the window. *)
Theorem configureLength_three_per_interval (ci : time.Duration)
    (factory : ValueRingFactory) :
  0 < ci → 0 ≤ Interval factory < 2 ^ 61 →
  ∃ factory', main.configureLength ci factory = Some factory'
    ∧ Interval factory' = Interval factory
    ∧ Length factory' = 3 * (Interval factory / ci)
    ∧ (ci ≤ Interval factory → 3 ≤ Length factory').
Proof.
  intros Hci Hint. unfold main.configureLength.
  destruct (ci =? 0) eqn:Hz; [apply Z.eqb_eq in Hz; lia|].
  eexists. split; [reflexivity|]. cbn [Length Interval].
  rewrite Z.quot_div_nonneg by lia.
  assert (0 ≤ Interval factory / ci ≤ Interval factory) as Hq.
  { split; [apply Z.div_pos; lia|]. apply Z.div_le_upper_bound; nia. }
  rewrite (wrap64_small (Interval factory / ci)) by lia.
  rewrite wrap64_small by lia. split; [done|]. split; [lia|].
  intros Hle. assert (1 ≤ Interval factory / ci); [|lia].
  apply Z.div_le_lower_bound; lia.
Qed.

(** X17. When the collection interval is longer than the window, the rings get
    no slot: they are created, and their first commit and every read
    panic. *)
Theorem configureLength_window_too_short (ci : time.Duration)
    (factory : ValueRingFactory) :
  0 ≤ Interval factory < ci →
  ∃ factory' (r : @ValueRing F),
    main.configureLength ci factory = Some factory'
    ∧ Length factory' = 0
    ∧ NewValueRing factory' = mret r
    ∧ (∀ now v, ValueRing_AddValue now v r = go_panic (IndexOutOfRange 0 0))
    ∧ GetDiff r = go_panic (IndexOutOfRange (-1) 0).
Proof.
  intros Hint. unfold main.configureLength.
  destruct (ci =? 0) eqn:Hz; [apply Z.eqb_eq in Hz; lia|].
  rewrite Z.quot_small by lia. change (time.wrap64 (time.wrap64 0 * 3)) with 0.
  do 2 eexists. split; [reflexivity|]. by repeat split.
Qed.

End config.

Section mock_generator.

Lemma generate_closed (v : bitflow.Value) :
  In v mock.mock_values → In (mock.generate v) mock.mock_values.
Proof.
  unfold mock.mock_values. intros Hin.
  repeat (destruct Hin as [<-|Hin]; [vm_compute; tauto|]). destruct Hin.
Qed.

Lemma generated_mock_value (n : nat) : In (mock.generated n) mock.mock_values.
Proof.
  induction n as [|n IH]; [by left|]. unfold mock.generated. cbn [Nat.iter].
  by apply generate_closed.
Qed.

(** X18. The value of the mock collector stays below [_max_mock_val]: it
    counts from 0 to 14, and is never negative. *)
Theorem mock_value_bounded (n : nat) :
  PrimFloat.leb 0 (mock.generated n) = true
  ∧ PrimFloat.ltb (mock.generated n) mock._max_mock_val = true.
Proof.
  pose proof (generated_mock_value n) as Hin. revert Hin.
  generalize (mock.generated n). intros v Hin. unfold mock.mock_values in Hin.
  repeat (destruct Hin as [<-|Hin]; [by vm_compute|]). destruct Hin.
Qed.

End mock_generator.

Section rest_api.
Import cmd_helper.

(** X19. Repeating a request changes nothing: the second one of two equal
    requests in a row leaves the flag as the first one has set it, logs
    nothing and writes the same answer. *)
Theorem handleRequest_idempotent (method : string) (enabled : bool) :
  handleRequest method (handleRequest method enabled).1.1
  = ((handleRequest method enabled).1.1, [], (handleRequest method enabled).2).
Proof.
  unfold handleRequest.
  destruct (String.eqb method "GET"), (String.eqb method "POST" || String.eqb method "PUT"),
    (String.eqb method "DELETE"), enabled; reflexivity.
Qed.

Lemma handleRequest_requested (method : string) (enabled : bool) :
  String.eqb method "GET" = false ∨ requested method = None →
  (handleRequest method enabled).1.1 = default enabled (requested method).
Proof.
  unfold handleRequest, requested. intros Hget. cbn [fst snd].
  destruct (String.eqb method "GET") eqn:HGET.
  - destruct Hget as [|Hget]; [done|].
    by destruct (String.eqb method "POST" || String.eqb method "PUT"),
      (String.eqb method "DELETE").
  - by destruct (String.eqb method "POST" || String.eqb method "PUT"),
      (String.eqb method "DELETE").
Qed.

Lemma requested_GET (method : string) :
  String.eqb method "GET" = true → requested method = None.
Proof. intros ->%String.eqb_eq. reflexivity. Qed.

(** X20. The last request that asks for something decides: after any list of
    requests the flag is what the last [POST], [PUT] or [DELETE] in it has
    asked for, and what it was before when there is none. *)
Theorem serve_last_request_wins (methods : list string) (enabled : bool) :
  (serve methods enabled).1 = default enabled (last (omap requested methods)).
Proof.
  revert enabled. induction methods as [|method rest IH]; intros enabled; [done|].
  cbn [serve]. destruct (handleRequest method enabled) as [[e lines] resp] eqn:Hreq.
  specialize (IH e). destruct (serve rest e) as [final lines'] eqn:Hserve.
  cbn [fst] in *. rewrite IH.
  assert (e = default enabled (requested method)) as ->.
  { change e with ((e, lines, resp).1.1). rewrite <- Hreq.
    apply handleRequest_requested.
    destruct (String.eqb method "GET") eqn:HGET; [right; by apply requested_GET|by left]. }
  change (omap requested (method :: rest))
    with (match requested method with
          | Some y => y :: omap requested rest
          | None => omap requested rest
          end).
  destruct (requested method) as [b|]; [|by cbn].
  rewrite (last_cons b). by destruct (last (omap requested rest)).
Qed.

End rest_api.

Section libvirt_driver.
Import libvirt.
Context {Conn LibError : Type}.
Abbreviation Library := (@Library Conn LibError).
Abbreviation DriverImpl := (@DriverImpl Conn).

Lemma connect_if_nil_holds (L : Library) (c : option Conn) (d d' : DriverImpl) c' err :
  (∀ x, c = Some x → conn d = Some x) → (c = None → conn d = None) →
  connect_if_nil L c d = (d', (c', err)) →
  uri d' = uri d
  ∧ (err = None → conn d' = c')
  ∧ (is_Some err → c' = None ∧ conn d' = None).
Proof.
  intros Hsome Hnone. unfold connect_if_nil. destruct c as [x|].
  - intros [= <- <- <-]. split; [done|]. split; [intros _; by apply Hsome|].
    by intros [? ?].
  - specialize (Hnone eq_refl). destruct (String.eqb (uri d) "").
    + intros [= <- <- <-]. split; [done|]. split; [done|]. by intros _.
    + destruct (NewConnect L (uri d)) as [x [e|]].
      * intros [= <- <- <-]. split; [done|]. split; [done|]. by intros _.
      * intros [= <- <- <-]. split; [done|]. split; [done|]. by intros [? ?].
Qed.

(** X21. After [connection()] the driver holds the connection it has returned,
    and none when it has returned an error; its URI is unchanged. *)
Theorem connection_holds_its_result (L : Library) (d d' : DriverImpl) c err warnings :
  connection L d = (d', (c, err), warnings) →
  uri d' = uri d
  ∧ (err = None → conn d' = c)
  ∧ (is_Some err → c = None ∧ conn d' = None).
Proof.
  unfold connection. destruct (conn d) as [x|] eqn:Hconn.
  - destruct (IsAlive L x) as [alive aerr].
    destruct (bool_decide (is_Some aerr) || negb alive).
    + unfold Close. rewrite Hconn.
      destruct (ConnClose L x) as [n [e|]]; cbn -[connect_if_nil].
      * intros [= <- <- <- _]. split; [done|]. split; [done|]. by intros _.
      * intros [H _]%pair_equal_spec. by apply connect_if_nil_holds in H.
    + intros [H _]%pair_equal_spec. apply connect_if_nil_holds in H; [done| |done].
      by intros ? [= <-].
  - intros [H _]%pair_equal_spec. by apply connect_if_nil_holds in H.
Qed.

(** X22. A live connection is reused: after a [connection()] that has returned
    a connection, the next one returns the same connection, as long as the
    library reports it alive, without a warning and without asking for a
    new one. *)
Theorem connection_reuses_live (L L' : Library) (d d' : DriverImpl) c warnings :
  connection L d = (d', (Some c, None), warnings) →
  IsAlive L' c = (true, None) →
  connection L' d' = (d', (Some c, None), []).
Proof.
  intros Hfirst Halive.
  destruct (connection_holds_its_result _ _ _ _ _ _ Hfirst) as (_ & Hheld & _).
  unfold connection. rewrite (Hheld eq_refl), Halive. reflexivity.
Qed.

(** X23. Without a URI no connection is made: the connection is the one the
    driver held, still alive, or the call fails. *)
Theorem connection_needs_uri (L : Library) (d d' : DriverImpl) c err warnings :
  uri d = ""%string → connection L d = (d', (c, err), warnings) →
  (conn d = None → d' = d ∧ c = None ∧ err = Some NotConnected ∧ warnings = [])
  ∧ (∀ x, c = Some x → conn d = Some x ∧ IsAlive L x = (true, None)).
Proof.
  intros Huri. unfold connection, connect_if_nil, Close.
  destruct (conn d) as [x|] eqn:Hconn.
  - destruct (IsAlive L x) as [alive [e|]] eqn:Halive; cbn.
    + destruct (ConnClose L x) as [n [e'|]]; cbn; rewrite ?Huri; cbn;
        intros [= <- <- <- <-]; by split.
    + destruct alive; cbn.
      * intros [= <- <- <- <-]. split; [done|]. by intros ? [= <-].
      * destruct (ConnClose L x) as [n [e'|]]; cbn; rewrite ?Huri; cbn;
          intros [= <- <- <- <-]; by split.
  - rewrite Huri. cbn. intros [= <- <- <- <-]. by split.
Qed.

(** X24. [Close()] forgets the connection whatever the library answers, and a
    second [Close()] does nothing and returns no error. *)
Theorem Close_twice (L L' : Library) (d : DriverImpl) :
  conn (Close L d).1 = None
  ∧ uri (Close L d).1 = uri d
  ∧ Close L' (Close L d).1 = ((Close L d).1, None).
Proof.
  unfold Close. destruct (conn d) as [x|] eqn:Hconn.
  - by destruct (ConnClose L x) as [n err].
  - cbn. by rewrite Hconn.
Qed.

End libvirt_driver.

Section libvirt_domain_proofs.
Import libvirt.
Context {LibError DomainCPUStats DomainMemoryStat : Type}.
Context (CpuTime SystemTime UserTime VcpuTime : DomainCPUStats → Z).
Context (Tag Val : DomainMemoryStat → Z).
Context (UNUSED AVAILABLE : Z).

(** X25. [CpuStats] returns statistics exactly when the library has returned
    no error and one entry, and then those of that entry; with no entry or
    several it returns an error of its own, never a panic, and with any
    error the zero statistics. *)
Theorem CpuStats_needs_one_entry (statSlice : list DomainCPUStats)
    (liberr : option LibError) res err :
  CpuStats CpuTime SystemTime UserTime VcpuTime (statSlice, liberr) = (res, err) →
  (err = None ↔ liberr = None ∧ length statSlice = 1%nat)
  ∧ (∀ stats, err = None → statSlice !! 0%nat = Some stats →
       res = {| cpuTime := CpuTime stats; systemTime := SystemTime stats;
                userTime := UserTime stats; vcpuTime := VcpuTime stats |})
  ∧ (is_Some err → res = {| cpuTime := 0; systemTime := 0; userTime := 0; vcpuTime := 0 |})
  ∧ (∀ e, liberr = Some e → err = Some (Lib e))
  ∧ (liberr = None → length statSlice ≠ 1%nat →
       err = Some (WrongNumberOfCpuStats (Z.of_nat (length statSlice)))).
Proof.
  unfold CpuStats. destruct liberr as [e|]; cbn [fmap option_fmap option_map].
  - intros [= <- <-]. split; [split; [done|by intros [? _]]|].
    split; [done|]. split; [done|]. split; [by intros ? [= <-]|done].
  - destruct (Z.of_nat (length statSlice) =? 1) eqn:Hone; cbn [negb].
    + apply Z.eqb_eq in Hone. destruct statSlice as [|stats [|]]; cbn in Hone; try lia.
      intros [= <- <-]. split; [done|]. split; [by intros ? _ [= <-]|].
      split; [by intros [? ?]|]. split; [done|]. intros _ Hlen. by destruct Hlen.
    + apply Z.eqb_neq in Hone. intros [= <- <-].
      split; [split; [done|intros [_ Hlen]; lia]|].
      split; [done|]. split; [done|]. split; done.
Qed.

Lemma foldl_memoryStat_Unused (stats : list DomainMemoryStat) res :
  UNUSED ≠ AVAILABLE →
  Unused (foldl (memoryStat Tag Val UNUSED AVAILABLE) res stats)
  = default (Unused res) (last (Val <$> filter (λ stat, Tag stat = UNUSED) stats))
  ∧ Available (foldl (memoryStat Tag Val UNUSED AVAILABLE) res stats)
  = default (Available res) (last (Val <$> filter (λ stat, Tag stat = AVAILABLE) stats)).
Proof.
  intros Hne. induction stats as [|stat stats IH] using rev_ind; [done|].
  rewrite foldl_app, !filter_app, !fmap_app. cbn [foldl]. unfold memoryStat at 1 3.
  rewrite !filter_cons, !filter_nil.
  destruct (Tag stat =? UNUSED) eqn:Hu.
  - apply Z.eqb_eq in Hu. rewrite !decide_True by done.
    rewrite decide_False by lia. cbn [fmap list_fmap Unused Available].
    rewrite last_snoc, app_nil_r. by destruct IH.
  - apply Z.eqb_neq in Hu. rewrite (decide_False (P := Tag stat = UNUSED)) by done.
    cbn [fmap list_fmap]. rewrite app_nil_r.
    destruct (Tag stat =? AVAILABLE) eqn:Ha.
    + apply Z.eqb_eq in Ha. rewrite decide_True by done.
      cbn [fmap list_fmap Unused Available]. rewrite last_snoc. by destruct IH.
    + apply Z.eqb_neq in Ha. rewrite decide_False by done.
      cbn [fmap list_fmap]. by rewrite app_nil_r.
Qed.

(** X26. [MemoryStats] reports, for each of its two tags, the value of the last
    statistic with that tag, and 0 when there is none; statistics with
    other tags change nothing. With an error of the library it returns
    that error and zeros. *)
Theorem MemoryStats_last_of_each_tag (stats : list DomainMemoryStat)
    (liberr : option LibError) :
  UNUSED ≠ AVAILABLE →
  MemoryStats Tag Val UNUSED AVAILABLE (stats, liberr)
  = match liberr with
    | None => ({| Unused := last_with_tag Tag Val UNUSED stats;
                  Available := last_with_tag Tag Val AVAILABLE stats |}, None)
    | Some e => ({| Unused := 0; Available := 0 |}, Some (Lib e))
    end.
Proof.
  intros Hne. unfold MemoryStats. destruct liberr as [e|]; [done|]. f_equal.
  destruct (foldl_memoryStat_Unused stats {| Unused := 0; Available := 0 |} Hne)
    as [Hu Ha].
  destruct (foldl _ _ stats) as [u a]. cbn in Hu, Ha. unfold last_with_tag.
  by rewrite Hu, Ha.
Qed.

End libvirt_domain_proofs.

(** * More properties at concrete inputs *)

Lemma rising_ring_bounds : 0 ≤ head rising_ring < len rising_ring.
Proof. by vm_compute. Qed.

Lemma pending_ring_bounds : 0 ≤ head pending_ring < len pending_ring.
Proof. by vm_compute. Qed.

Lemma Add_GetHead_round_trip_witness :
  (∃ r', Add (2 * time.Second) (Some (StoredValue 30%float)) rising_ring = mret r'
     ∧ GetHead r' = mret (Some (StoredValue 30%float)) ∧ aggregator r' = None)
  ∧ (∃ r', Add (2 * time.Second) (Some (StoredValue 30%float)) pending_ring = mret r'
       ∧ GetHead r' = mret (Some (StoredValue 35%float)) ∧ aggregator r' = None)
  ∧ Add (2 * time.Second) (Some (StoredValuePtr None)) pending_ring
    = go_panic NilDereference.
Proof.
  split; [|split].
  - exact (proj1
      (Add_GetHead_round_trip (2 * time.Second) (Some (StoredValue 30%float))
         rising_ring rising_ring_bounds) eq_refl).
  - exact (proj1 (proj2 (proj2
      (Add_GetHead_round_trip (2 * time.Second) (Some (StoredValue 30%float))
         pending_ring pending_ring_bounds))) 5%float 30%float eq_refl eq_refl).
  - exact (proj2 (proj2 (proj2 (proj2
      (Add_GetHead_round_trip (2 * time.Second) (Some (StoredValuePtr None))
         pending_ring pending_ring_bounds)))) 5%float eq_refl eq_refl).
Defined.

Lemma AddValueToHead_accumulates_witness :
  ∃ r1 r2, AddAllToHead [1; 2; 3]%float rising_ring = mret r1
    ∧ FlushHead (2 * time.Second) r1 = mret r2
    ∧ getHead r2 = mret (stored (2 * time.Second, 6%float)).
Proof.
  destruct (AddValueToHead_accumulates (2 * time.Second) 1%float [2; 3]%float
              rising_ring rising_ring_bounds eq_refl)
    as (r1 & r2 & H1 & _ & _ & H2 & H3 & _).
  by exists r1, r2.
Defined.

Lemma fresh_ring_bounds : 0 ≤ head fresh_ring < len fresh_ring.
Proof. by vm_compute. Qed.

Lemma Increment_running_total_witness :
  ∃ r', IncrementAll [(0, 5%float); (1 * time.Second, 2%float); (2 * time.Second, 1%float)]
          fresh_ring = mret r'
    ∧ GetHead r' = mret (Some (StoredValue 8%float)).
Proof.
  exact (Increment_running_total 0 5%float
           [(1 * time.Second, 2%float); (2 * time.Second, 1%float)]
           fresh_ring zeroTimedValue fresh_ring_bounds eq_refl eq_refl eq_refl).
Defined.

Lemma FlushHead_nothing_pending_witness :
  ∃ r', FlushHead (2 * time.Second) rising_ring = mret r'
    ∧ GetHead r' = mret None
    ∧ GetDiff r' = mret (bitflow.zero, with_previousDiff bitflow.zero r').
Proof. exact (FlushHead_nothing_pending (2 * time.Second) rising_ring rising_ring_bounds eq_refl). Defined.

Lemma rising_ring_reachable : reachable factory4 rising_ring.
Proof.
  eapply (reachable_Add factory4 _ _ (1 * time.Second) (Some (StoredValue 20%float)) []);
    [eapply (reachable_Add factory4 _ _ 0 (Some (StoredValue 10%float)) []);
       [apply reachable_new; reflexivity|reflexivity]|reflexivity].
Qed.

Lemma wrapped_counter_ring_reachable : reachable factory4 wrapped_counter_ring.
Proof.
  eapply (reachable_Add factory4 rising_ring_read _ (2 * time.Second)
            (Some (StoredValue 5%float)) []); [|reflexivity].
  eapply reachable_step; [apply rising_ring_reachable|].
  by apply (step_GetDiff rising_ring [] 10%float).
Qed.

Lemma GetDiff_never_negative_witness :
  getDiffInterval wrapped_counter_ring (interval wrapped_counter_ring)
    = mret (-2.5)%float
  ∧ PrimFloat.ltb (-2.5) 0 = true
  ∧ GetDiff wrapped_counter_ring = mret (10%float, recovered_ring)
  ∧ PrimFloat.ltb 10 0 = false.
Proof.
  split; [reflexivity|]. split; [reflexivity|]. split; [reflexivity|].
  exact (GetDiff_never_negative factory4 wrapped_counter_ring recovered_ring [] 10%float
           wrapped_counter_ring_reachable eq_refl).
Defined.

Lemma get_first_earlier_witness :
  get rising_ring (1 * time.Second) = mret (stored (0, 10%float)).
Proof.
  refine (get_first_earlier rising_ring (1 * time.Second) _). by vm_compute.
Defined.

Lemma get_finds_a_sample_witness :
  ∃ previous, get rising_ring 0 = mret previous
    ∧ is_Some (val previous) ∧ previous ∈ values rising_ring.
Proof.
  refine (get_finds_a_sample rising_ring (stored (1 * time.Second, 20%float)) 0
            rising_ring_bounds eq_refl _).
  by eexists.
Defined.

Lemma flush_only_clears_witness :
  Forall2 kept_or_cleared (values rising_ring)
    [{| Time := 0; val := None |}; stored (1 * time.Second, 20%float);
     zeroTimedValue; zeroTimedValue].
Proof.
  exact (proj2 (proj2 (proj2 (proj2 (proj2
    (flush_only_clears 0 rising_ring
       {| interval := 1 * time.Second;
          values := [{| Time := 0; val := None |}; stored (1 * time.Second, 20%float);
                     zeroTimedValue; zeroTimedValue];
          head := 2; aggregator := None; previousDiff := bitflow.zero |} []
       eq_refl)))))).
Defined.

Lemma GetDiff_after_fallback_witness :
  GetDiff wrapped_counter_ring = mret (10%float, recovered_ring)
  ∧ GetDiff recovered_ring
    = mret (bitflow.zero, with_previousDiff bitflow.zero recovered_ring).
Proof.
  split; [reflexivity|].
  refine (proj2 (GetDiff_after_fallback wrapped_counter_ring recovered_ring
                   [] (-2.5)%float [] 10%float _ eq_refl eq_refl eq_refl)).
  by vm_compute.
Defined.

Lemma zero_capacity_ring_panics_witness :
  ∃ r : ScalarRing,
    NewValueRing {| Length := 0; Interval := 1 * time.Second |} = mret r
    ∧ GetDiff r = go_panic (IndexOutOfRange (-1) 0).
Proof.
  destruct (zero_capacity_ring_panics (F := Empty_set)
              {| Length := 0; Interval := 1 * time.Second |} eq_refl)
    as (r & Hnew & _ & _ & _ & _ & Hdiff).
  by exists r.
Defined.

Lemma sampled_single_slot_ring_reachable :
  reachable factory1 sampled_single_slot_ring.
Proof.
  eapply (reachable_Add factory1 _ _ (1 * time.Second) (Some (StoredValue 20%float)) []);
    [eapply (reachable_Add factory1 _ _ 0 (Some (StoredValue 10%float)) []);
       [apply reachable_new; reflexivity|reflexivity]|reflexivity].
Qed.

Lemma single_slot_ring_GetDiff_witness :
  GetHead sampled_single_slot_ring = mret (Some (StoredValue 20%float))
  ∧ get sampled_single_slot_ring (time.Add (1 * time.Second) (time.neg (1 * time.Second)))
    = mret (stored (1 * time.Second, 20%float))
  ∧ GetDiff sampled_single_slot_ring
    = mret (bitflow.zero, with_previousDiff bitflow.zero sampled_single_slot_ring).
Proof.
  split; [reflexivity|]. split; [reflexivity|].
  exact (single_slot_ring_GetDiff factory1 sampled_single_slot_ring eq_refl
           sampled_single_slot_ring_reachable).
Defined.

Lemma ring_retains_latest_witness :
  ∃ r : ScalarRing,
    (r0 ← NewValueRing {| Length := 3; Interval := 1 * time.Second |};
     AddAll [(0, 1%float); (1, 2%float); (2, 3%float); (3, 4%float); (4, 5%float)] r0)
    = mret r
    ∧ GetHead r = mret (Some (StoredValue 5%float)).
Proof.
  destruct (ring_retains_latest (F := Empty_set) 3 (1 * time.Second)
              [(0, 1%float); (1, 2%float); (2, 3%float); (3, 4%float); (4, 5%float)])
    as (r & Hrun & _ & Hhead); [lia|].
  exists r. split; [exact Hrun|]. exact (Hhead (4, 5%float) eq_refl).
Defined.

Lemma splitKeyValue_round_trip_witness :
  main.splitKeyValue (list_ascii_of_string "cpu=a=b")
  = (None, (list_ascii_of_string "cpu", list_ascii_of_string "a=b")).
Proof.
  refine (splitKeyValue_round_trip (list_ascii_of_string "cpu")
            (list_ascii_of_string "a=b") _ _).
  - discriminate.
  - intros Hin. repeat (apply elem_of_cons in Hin as [Heq|Hin]; [discriminate Heq|]).
    by apply elem_of_nil in Hin.
Defined.

Lemma splitKeyValue_splits_witness :
  list_ascii_of_string "k=v"
  = list_ascii_of_string "k" ++ main.equals ++ list_ascii_of_string "v".
Proof.
  exact (proj1 (splitKeyValue_splits (list_ascii_of_string "k=v")
                  (list_ascii_of_string "k") (list_ascii_of_string "v") eq_refl)).
Defined.

Lemma splitKeyValue_error_witness :
  main.splitKeyValue (list_ascii_of_string "=x") = (Some main.formatError, ([], [])).
Proof.
  apply (proj1 (splitKeyValue_error (list_ascii_of_string "=x"))).
  right. by eexists.
Defined.

Lemma configureLength_three_per_interval_witness :
  ∃ factory', main.configureLength (500000000) {| Length := 0; Interval := time.Second |}
                = Some factory'
    ∧ Length factory' = 6.
Proof.
  destruct (configureLength_three_per_interval 500000000
              {| Length := 0; Interval := time.Second |})
    as (factory' & Hconf & _ & Hlen & _); [lia|by vm_compute|].
  exists factory'. split; [exact Hconf|]. rewrite Hlen. reflexivity.
Defined.

Lemma configureLength_window_too_short_witness :
  ∃ factory' (r : ScalarRing),
    main.configureLength (2 * time.Second) {| Length := 0; Interval := time.Second |}
    = Some factory'
    ∧ NewValueRing factory' = mret r
    ∧ GetDiff r = go_panic (IndexOutOfRange (-1) 0).
Proof.
  destruct (configureLength_window_too_short (F := Empty_set) (2 * time.Second)
              {| Length := 0; Interval := time.Second |})
    as (factory' & r & Hconf & _ & Hnew & _ & Hdiff); [by vm_compute|].
  by exists factory', r.
Defined.

Lemma connection_holds_its_result_witness :
  libvirt.connection test_library stale_driver
  = ({| libvirt.uri := "qemu:///system"; libvirt.conn := Some 2%nat |},
     (Some 2%nat, None), [None])
  ∧ libvirt.conn {| libvirt.uri := "qemu:///system"%string; libvirt.conn := Some 2%nat |}
    = Some 2%nat.
Proof.
  split; [reflexivity|].
  exact (proj1 (proj2 (connection_holds_its_result test_library stale_driver _ _ _ _
                         eq_refl)) eq_refl).
Defined.

Lemma connection_reuses_live_witness :
  libvirt.connection test_library
    {| libvirt.uri := "qemu:///system"; libvirt.conn := Some 2%nat |}
  = ({| libvirt.uri := "qemu:///system"; libvirt.conn := Some 2%nat |},
     (Some 2%nat, None), []).
Proof.
  exact (connection_reuses_live test_library test_library stale_driver _ 2%nat [None]
           eq_refl eq_refl).
Defined.

Lemma connection_needs_uri_witness :
  libvirt.connection test_library libvirt.NewDriver
  = (libvirt.NewDriver, (None, Some libvirt.NotConnected), []).
Proof.
  destruct (libvirt.connection test_library libvirt.NewDriver)
    as [[d' [c err]] warnings] eqn:Hconn.
  destruct (connection_needs_uri test_library libvirt.NewDriver d' c err warnings
              eq_refl Hconn) as [Hnone _].
  destruct (Hnone eq_refl) as (-> & -> & -> & ->). reflexivity.
Defined.

Lemma CpuStats_needs_one_entry_witness :
  libvirt.CpuStats (LibError := unit) id id id id ([] : list Z, None)
  = ({| libvirt.cpuTime := 0; libvirt.systemTime := 0; libvirt.userTime := 0;
        libvirt.vcpuTime := 0 |},
     Some (libvirt.WrongNumberOfCpuStats 0)).
Proof.
  destruct (libvirt.CpuStats (LibError := unit) id id id id ([] : list Z, None))
    as [res err] eqn:Hstats.
  destruct (CpuStats_needs_one_entry (LibError := unit) id id id id [] None res err Hstats)
    as (_ & _ & Hzero & _ & Hwrong).
  rewrite (Hwrong eq_refl ltac:(discriminate)) in *.
  rewrite Hzero by (by eexists). reflexivity.
Defined.

Lemma MemoryStats_last_of_each_tag_witness :
  libvirt.MemoryStats (LibError := unit) fst snd 4 5
    ([(4, 100); (7, 1); (5, 200); (4, 300)], None)
  = ({| libvirt.Unused := 300; libvirt.Available := 200 |}, None).
Proof.
  refine (MemoryStats_last_of_each_tag (LibError := unit) fst snd 4 5
            [(4, 100); (7, 1); (5, 200); (4, 300)] None _).
  discriminate.
Defined.
